(** * Cross-Platform-Action-Agent: the e-mail automation agent of [src/main.py]

    A shallow embedding of [LLMClient], [WebAutomationAgent] and
    [AutomationAPI], and the properties of the instruction parser, the action
    planner, the action executor and the session orchestrator.

    Conventions of the embedding.
    - A Python [str] is a [string]; the model covers ASCII text, on which
      [str.lower] and [str.capitalize] act letter by letter.
    - A Python [dict] with string keys and values is the list of its
      [items()], in insertion order.
    - The browser (Playwright page, browser and driver) is outside the
      program: it is a [world] that answers every call, given the history of
      the run, by returning or by raising.  Log records are kept in the same
      history.
    - Code that can raise lives in a state-and-exception monad over that
      history; [try/except] and [try/finally] are combinators of it. *)

From Stdlib Require Import Bool Arith Lia List ZArith Ascii String.
Import ListNotations.

Open Scope string_scope.
Open Scope list_scope.

(* ================================================================== *)
(** ** Python string operations *)
(* ================================================================== *)

Module PyStr.

(** [c] is one of [A]..[Z]. *)
Definition is_upper (c : ascii) : bool :=
  let n := nat_of_ascii c in ((65 <=? n)%nat && (n <=? 90)%nat)%bool.

(** [c] is one of [a]..[z]. *)
Definition is_lower (c : ascii) : bool :=
  let n := nat_of_ascii c in ((97 <=? n)%nat && (n <=? 122)%nat)%bool.

Definition lower_char (c : ascii) : ascii :=
  if is_upper c then ascii_of_nat (nat_of_ascii c + 32) else c.

Definition upper_char (c : ascii) : ascii :=
  if is_lower c then ascii_of_nat (nat_of_ascii c - 32) else c.

(** [s.lower()] on ASCII text: the letters [A]..[Z] are lower-cased and
    nothing else changes.  Python's [str.lower] also maps letters outside
    ASCII; texts with such characters are outside this model (see
    [is_ascii]). *)
Fixpoint lower (s : string) : string :=
  match s with
  | EmptyString => EmptyString
  | String c s' => String (lower_char c) (lower s')
  end.

(** [s.capitalize()] on ASCII text: first character upper-cased, the rest
    lower-cased.  Python's [str.capitalize] title-cases the first code
    point, for some characters outside ASCII into two; such texts are
    outside this model (see [is_ascii]). *)
Definition capitalize (s : string) : string :=
  match s with
  | EmptyString => EmptyString
  | String c s' => String (upper_char c) (lower s')
  end.

(** [s.startswith(p)] *)
Fixpoint startswith (p s : string) : bool :=
  match p, s with
  | EmptyString, _ => true
  | String _ _, EmptyString => false
  | String a p', String b s' => Ascii.eqb a b && startswith p' s'
  end.

(** [sub in s] *)
Fixpoint contains (sub s : string) : bool :=
  startswith sub s
  || match s with
     | EmptyString => false
     | String _ s' => contains sub s'
     end.

(** [s.split(sep)] for a non-empty [sep]: a left-to-right scan; at an
    occurrence of [sep] the current piece ends and the scan resumes after
    the occurrence ([skip] counts the characters of it still to pass). *)
Fixpoint split_scan (sep : string) (skip : nat) (s : string) : list string :=
  match s with
  | EmptyString => [EmptyString]
  | String c s' =>
      match skip with
      | S k => split_scan sep k s'
      | O =>
          if startswith sep s
          then EmptyString :: split_scan sep (String.length sep - 1) s'
          else match split_scan sep 0 s' with
               | piece :: pieces => String c piece :: pieces
               | [] => [String c EmptyString]
               end
      end
  end.

Definition split (sep s : string) : list string := split_scan sep 0 s.

(** [s.replace(old, new)] for a non-empty [old]: the same scan, every
    occurrence met is replaced and passed over. *)
Fixpoint replace_scan (old new : string) (skip : nat) (s : string) : string :=
  match s with
  | EmptyString => EmptyString
  | String c s' =>
      match skip with
      | S k => replace_scan old new k s'
      | O =>
          if startswith old s
          then new ++ replace_scan old new (String.length old - 1) s'
          else String c (replace_scan old new 0 s')
      end
  end.

(** With an empty [old] Python puts [new] before every character and at
    the end. *)
Fixpoint intersperse (new s : string) : string :=
  match s with
  | EmptyString => new
  | String c s' => new ++ String c (intersperse new s')
  end.

Definition replace (old new s : string) : string :=
  match old with
  | EmptyString => intersperse new s
  | String _ _ => replace_scan old new 0 s
  end.

(** Every character of [s] satisfies [P]. *)
Fixpoint all_chars (P : ascii -> bool) (s : string) : bool :=
  match s with
  | EmptyString => true
  | String c s' => P c && all_chars P s'
  end.

(** [c not in s] for a character [c]. *)
Definition lacks (c : ascii) (s : string) : bool :=
  all_chars (fun x => negb (Ascii.eqb x c)) s.

(** The text before the first occurrence of [sep] (all of [s] if none). *)
Fixpoint before_first (sep s : string) : string :=
  match s with
  | EmptyString => EmptyString
  | String c s' =>
      if startswith sep s then EmptyString else String c (before_first sep s')
  end.

(** [n] characters dropped from the front. *)
Fixpoint drop (n : nat) (s : string) : string :=
  match n, s with
  | O, _ => s
  | S _, EmptyString => EmptyString
  | S k, String _ s' => drop k s'
  end.

(** The text after the first occurrence of [sep], if there is one. *)
Fixpoint after_first (sep s : string) : option string :=
  if startswith sep s then Some (drop (String.length sep) s)
  else match s with
       | EmptyString => None
       | String _ s' => after_first sep s'
       end.

End PyStr.

(* ================================================================== *)
(** ** Data model *)
(* ================================================================== *)

(** [class EmailService(Enum)] and its [.value]. *)
Inductive EmailService : Type := GMAIL | OUTLOOK.

Definition value (s : EmailService) : string :=
  match s with
  | GMAIL => "gmail"
  | OUTLOOK => "outlook"
  end.

(** [@dataclass class EmailInstruction] *)
Record EmailInstruction : Type := mkEmailInstruction {
  recipient : string;
  subject : string;
  body : string;
  service : EmailService
}.

(** A [Dict] of strings: its items in insertion order. *)
Definition dict : Type := list (string * string).

Fixpoint lookup (key : string) (d : dict) : option string :=
  match d with
  | [] => None
  | (k, v) :: d' => if String.eqb k key then Some v else lookup key d'
  end.

Definition keys (d : dict) : list string := map fst d.

(* ================================================================== *)
(** ** Exceptions, the browser and the history of a run *)
(* ================================================================== *)

(** The exceptions the program can meet; all of them are subclasses of
    Python's [Exception]. *)
Inductive exn : Type :=
| KeyError (key : string)
| IndexError
| PlaywrightError (message : string).

(** [str(e)] *)
Definition str_exn (e : exn) : string :=
  match e with
  | KeyError key => "'" ++ key ++ "'"
  | IndexError => "list index out of range"
  | PlaywrightError message => message
  end.

(** The calls the program makes on Playwright. *)
Inductive call : Type :=
| sync_playwright_start
| chromium_launch
| browser_new_context
| context_new_page
| page_goto (url : string)
| page_wait_for_timeout (ms : Z)
| page_content
| page_click (selector : string)
| page_fill (selector text : string)
| browser_close
| playwright_stop.

Inductive response : Type :=
| returns (v : string)
| raises (e : exn).

Inductive level : Type := INFO | ERROR.

(** What is logged; records that format a [str] are [Text], those that
    format an object keep the object. *)
Inductive message : Type :=
| Text (s : string)
| Parsed_email_data (email_data : EmailInstruction)
| Failed_to_execute_action (action : dict) (e : exn)
| Failed_to_send_email (e : exn).

Inductive event : Type :=
| Called (c : call) (r : response)
| Logged (lvl : level) (m : message)
| Printed (s : string).

Definition history : Type := list event.

(** The browser: what a call answers after a given history. *)
Definition world : Type := history -> call -> response.

(* ================================================================== *)
(** ** The monad of the program: history and exceptions *)
(* ================================================================== *)

Inductive outcome (A : Type) : Type :=
| Return (a : A)
| Raise (e : exn).
Arguments Return {A} a.
Arguments Raise {A} e.

Definition M (A : Type) : Type := world -> history -> outcome A * history.

Definition ret {A} (a : A) : M A := fun _ h => (Return a, h).

Definition raise {A} (e : exn) : M A := fun _ h => (Raise e, h).

Definition bind {A B} (m : M A) (f : A -> M B) : M B :=
  fun w h =>
    match m w h with
    | (Return a, h') => f a w h'
    | (Raise e, h') => (Raise e, h')
    end.

Notation "x <- m ;; k" := (bind m (fun x => k))
  (at level 61, m at next level, right associativity).
Notation "m ;; k" := (bind m (fun _ => k))
  (at level 61, right associativity).

(** [logger.info(...)], [logger.error(...)] *)
Definition log (lvl : level) (m : message) : M unit :=
  fun _ h => (Return tt, h ++ [Logged lvl m]).

(** [print(...)] *)
Definition print (s : string) : M unit :=
  fun _ h => (Return tt, h ++ [Printed s]).

(** A call on the browser: recorded with its answer, which is returned or
    raised. *)
Definition invoke (c : call) : M string :=
  fun w h =>
    match w h c with
    | returns v => (Return v, h ++ [Called c (returns v)])
    | raises e => (Raise e, h ++ [Called c (raises e)])
    end.

(** [try: body  except Exception as e: handler(e)] *)
Definition try_except {A} (body : M A) (handler : exn -> M A) : M A :=
  fun w h =>
    match body w h with
    | (Return a, h') => (Return a, h')
    | (Raise e, h') => handler e w h'
    end.

(** [try: body  finally: cleanup]: the cleanup always runs; an exception of
    the cleanup replaces the outcome of the body. *)
Definition try_finally {A} (body : M A) (cleanup : M unit) : M A :=
  fun w h =>
    match body w h with
    | (r, h') =>
        match cleanup w h' with
        | (Return _, h'') => (r, h'')
        | (Raise e, h'') => (Raise e, h'')
        end
    end.

(** [d[key]] *)
Definition getitem (d : dict) (key : string) : M string :=
  match lookup key d with
  | Some v => ret v
  | None => raise (KeyError key)
  end.

(** [l[i]] *)
Definition index (l : list string) (i : nat) : M string :=
  match nth_error l i with
  | Some x => ret x
  | None => raise IndexError
  end.

(* ================================================================== *)
(** ** [class LLMClient] *)
(* ================================================================== *)

Module LLMClient.
Import PyStr.

Definition default_recipient : string := "test@example.com".
Definition default_subject : string := "Automated Email".
Definition default_body : string :=
  "This is an automated email sent by the Humaein AI agent.".

(** [parse_email_instruction], the block under
    [# Extract recipient if mentioned]. *)
Definition extract_recipient (instruction recipient : string) : M string :=
  if contains "to " (lower instruction) then
    let parts := split "to " (lower instruction) in
    if (1 <? List.length parts)%nat then
      parts_1 <- index parts 1 ;;
      recipient_part <- index (split " " parts_1) 0 ;;
      if contains "@" recipient_part then ret recipient_part
      else ret recipient
    else ret recipient
  else ret recipient.

(** The block under [# Extract subject if mentioned]. *)
Definition extract_subject (instruction subject : string) : M string :=
  if contains "about " (lower instruction) then
    let parts := split "about " (lower instruction) in
    if (1 <? List.length parts)%nat then
      parts_1 <- index parts 1 ;;
      first <- index (split "." parts_1) 0 ;;
      ret (capitalize first)
    else ret subject
  else ret subject.

(** The block under [# Extract service preference if mentioned]. *)
Definition extract_service (instruction : string) (service : EmailService)
  : EmailService :=
  if contains "gmail" (lower instruction) then GMAIL
  else if contains "outlook" (lower instruction) then OUTLOOK
  else service.

Definition parse_email_instruction (instruction : string)
  : M EmailInstruction :=
  log INFO (Text ("Parsing instruction: " ++ instruction)) ;;
  let recipient := default_recipient in
  let subject := default_subject in
  let body := default_body in
  let service := GMAIL in
  recipient <- extract_recipient instruction recipient ;;
  subject <- extract_subject instruction subject ;;
  let service := extract_service instruction service in
  ret (mkEmailInstruction recipient subject body service).

Definition gmail_actions : list dict :=
  [ [("action", "click"); ("selector", "div[role='button'][gh='cm']");
     ("description", "Click compose button")];
    [("action", "fill"); ("selector", "input[aria-label='To']");
     ("value", "${recipient}"); ("description", "Fill recipient field")];
    [("action", "fill"); ("selector", "input[aria-label='Subject']");
     ("value", "${subject}"); ("description", "Fill subject field")];
    [("action", "fill"); ("selector", "div[aria-label='Message Body']");
     ("value", "${body}"); ("description", "Fill body field")];
    [("action", "click");
     ("selector", "div[role='button'][aria-label*='Send']");
     ("description", "Click send button")] ].

Definition outlook_actions : list dict :=
  [ [("action", "click"); ("selector", "button[aria-label='New message']");
     ("description", "Click new message button")];
    [("action", "fill"); ("selector", "input[aria-label='To']");
     ("value", "${recipient}"); ("description", "Fill recipient field")];
    [("action", "fill"); ("selector", "input[aria-label='Add a subject']");
     ("value", "${subject}"); ("description", "Fill subject field")];
    [("action", "fill"); ("selector", "div[aria-label='Message body']");
     ("value", "${body}"); ("description", "Fill body field")];
    [("action", "click"); ("selector", "button[aria-label='Send']");
     ("description", "Click send button")] ].

Definition analyze_ui_and_generate_actions (html goal : string)
  : M (list dict) :=
  log INFO (Text ("Analyzing UI for goal: " ++ goal)) ;;
  if contains "gmail" (lower goal) then ret gmail_actions
  else ret outlook_actions.

End LLMClient.

(* ================================================================== *)
(** ** [class WebAutomationAgent] *)
(* ================================================================== *)

Module WebAutomationAgent.
Import PyStr.

(** [__init__]: the browser session is acquired here. *)
Definition init : M unit :=
  invoke sync_playwright_start ;;
  invoke chromium_launch ;;
  invoke browser_new_context ;;
  invoke context_new_page ;;
  ret tt.

Definition navigate_to_service (service : EmailService) : M unit :=
  match service with
  | GMAIL =>
      invoke (page_goto "https://mail.google.com") ;;
      log INFO (Text "Navigated to Gmail")
  | OUTLOOK =>
      invoke (page_goto "https://outlook.live.com") ;;
      log INFO (Text "Navigated to Outlook")
  end ;;
  invoke (page_wait_for_timeout 3000) ;;
  ret tt.

Definition mock_authentication (service : EmailService) : M unit :=
  log INFO (Text ("Mock authentication for " ++ value service)) ;;
  invoke (page_wait_for_timeout 2000) ;;
  ret tt.

(** [f"${{{key}}}"] *)
Definition placeholder (key : string) : string := "${" ++ key ++ "}".

(** [for key, val in data.items(): value = value.replace(..., val)] *)
Fixpoint replace_placeholders (data : dict) (value : string) : string :=
  match data with
  | [] => value
  | (key, val) :: data' =>
      replace_placeholders data' (replace (placeholder key) val value)
  end.

(** The body of the [try] of one turn of the loop of [execute_actions]. *)
Definition execute_action (action data : dict) : M unit :=
  action_type <- getitem action "action" ;;
  selector <- getitem action "selector" ;;
  description <- getitem action "description" ;;
  log INFO (Text ("Executing: " ++ description)) ;;
  (if String.eqb action_type "click" then
     invoke (page_click selector) ;; ret tt
   else if String.eqb action_type "fill" then
     value <- getitem action "value" ;;
     let value := replace_placeholders data value in
     invoke (page_fill selector value) ;; ret tt
   else ret tt) ;;
  invoke (page_wait_for_timeout 1000) ;;
  ret tt.

(** One turn of the loop: the [try] and its [except]. *)
Definition guarded_action (action data : dict) : M unit :=
  try_except
    (execute_action action data)
    (fun e => log ERROR (Failed_to_execute_action action e)).

Fixpoint execute_actions (actions : list dict) (data : dict) : M unit :=
  match actions with
  | [] => ret tt
  | action :: actions' =>
      guarded_action action data ;;
      execute_actions actions' data
  end.

(** The [try] block of [send_email]. *)
Definition send_email_body (instruction : string) : M unit :=
  email_data <- LLMClient.parse_email_instruction instruction ;;
  log INFO (Parsed_email_data email_data) ;;
  navigate_to_service (service email_data) ;;
  mock_authentication (service email_data) ;;
  html <- invoke page_content ;;
  actions <- LLMClient.analyze_ui_and_generate_actions
               html ("Send email using " ++ value (service email_data)) ;;
  let data := [ ("recipient", recipient email_data);
                ("subject", subject email_data);
                ("body", body email_data) ] in
  execute_actions actions data ;;
  log INFO (Text "Email sent successfully!").

(** The [finally] block of [send_email]. *)
Definition send_email_cleanup : M unit :=
  invoke (page_wait_for_timeout 3000) ;;
  invoke browser_close ;;
  invoke playwright_stop ;;
  ret tt.

(** The [try] of [send_email] with its [except]. *)
Definition send_email_guarded (instruction : string) : M unit :=
  try_except
    (send_email_body instruction)
    (fun e => log ERROR (Failed_to_send_email e)).

Definition send_email (instruction : string) : M unit :=
  try_finally (send_email_guarded instruction) send_email_cleanup.

End WebAutomationAgent.

(* ================================================================== *)
(** ** [class AutomationAPI] and the script *)
(* ================================================================== *)

Module AutomationAPI.

Definition send_email_endpoint (instruction : string) : M dict :=
  try_except
    (WebAutomationAgent.send_email instruction ;;
     ret [("status", "success"); ("message", "Email sent successfully")])
    (fun e => ret [("status", "error"); ("message", str_exn e)]).

End AutomationAPI.

(** The instructions of [if __name__ == "__main__":]. *)
Definition instructions : list string :=
  [ "Send an email to colleague@company.com about the project update using Gmail";
    "Send an email to friend@example.com about our weekend plans using Outlook" ].

Fixpoint process (instructions : list string) : M unit :=
  match instructions with
  | [] => ret tt
  | instruction :: rest =>
      print (String "010" "Processing: " ++ instruction) ;;
      WebAutomationAgent.send_email instruction ;;
      process rest
  end.

Definition main : M unit :=
  WebAutomationAgent.init ;;
  process instructions.

(* ================================================================== *)
(** ** Definitions used to state the properties *)
(* ================================================================== *)

(** *** Histories *)

(** [m] only extends the history, by events that satisfy [P]. *)
Definition adds (P : event -> Prop) {A : Type} (m : M A) : Prop :=
  forall (w : world) (h : history),
    exists suffix, snd (m w h) = h ++ suffix /\ Forall P suffix.

(** How many times the browser was released in a history. *)
Fixpoint releases (h : history) : nat :=
  match h with
  | [] => 0
  | Called browser_close _ :: h' => S (releases h')
  | _ :: h' => releases h'
  end.

(** An event that does not release the browser. *)
Definition keeps_browser (ev : event) : Prop :=
  match ev with
  | Called browser_close _ => False
  | _ => True
  end.

Definition is_dispatch (c : call) : bool :=
  match c with
  | page_click _ | page_fill _ _ => true
  | _ => false
  end.

(** The clicks and fills of a history, in order, whatever they answered. *)
Fixpoint dispatched (h : history) : list call :=
  match h with
  | [] => []
  | Called c _ :: h' =>
      if is_dispatch c then c :: dispatched h' else dispatched h'
  | _ :: h' => dispatched h'
  end.

(** *** The executor *)

(** The page operation of an action: what [execute_actions] sends to the
    page for it, if the action has the entries the loop reads. *)
Definition dispatch (data action : dict) : option call :=
  match lookup "action" action, lookup "selector" action,
        lookup "description" action with
  | Some action_type, Some selector, Some _ =>
      if String.eqb action_type "click" then Some (page_click selector)
      else if String.eqb action_type "fill" then
        match lookup "value" action with
        | Some v =>
            Some (page_fill selector
                    (WebAutomationAgent.replace_placeholders data v))
        | None => None
        end
      else None
  | _, _, _ => None
  end.

(** The page operations of a list of actions, in order. *)
Definition dispatches (data : dict) (actions : list dict) : list call :=
  flat_map (fun action => match dispatch data action with
                          | Some c => [c]
                          | None => []
                          end) actions.

(** *** The parser *)

(** The candidate recipient in the text [s] that follows ["to "]: it runs
    up to the next space or the next ["to "], or to the end. *)
Fixpoint candidate (s : string) : string :=
  match s with
  | EmptyString => EmptyString
  | String c s' =>
      if PyStr.startswith " " s || PyStr.startswith "to " s then EmptyString
      else String c (candidate s')
  end.

(** Space, tab, line feed, vertical tab, form feed, carriage return. *)
Definition is_whitespace (c : ascii) : bool :=
  let n := nat_of_ascii c in
  ((n =? 32) || ((9 <=? n) && (n <=? 13)))%nat.

(** A whitespace-delimited token at the front of [s]. *)
Fixpoint token (s : string) : string :=
  match s with
  | EmptyString => EmptyString
  | String c s' => if is_whitespace c then EmptyString else String c (token s')
  end.

(** The recipient in the words of the specification: the
    whitespace-delimited token that follows ["to "] in the lower-cased
    instruction if it contains ["@"], the default address otherwise. *)
Definition spec_recipient (instruction : string) : string :=
  match PyStr.after_first "to " (PyStr.lower instruction) with
  | Some rest =>
      if PyStr.contains "@" (token rest) then token rest
      else LLMClient.default_recipient
  | None => LLMClient.default_recipient
  end.

(** [s] ends with ["to"]. *)
Fixpoint ends_with_to (s : string) : bool :=
  match s with
  | EmptyString => false
  | String _ s' => String.eqb s "to" || ends_with_to s'
  end.

(** The first whitespace character of [s], if there is one, is a space. *)
Fixpoint space_delimited (s : string) : bool :=
  match s with
  | EmptyString => true
  | String c s' =>
      if is_whitespace c then Ascii.eqb c " " else space_delimited s'
  end.

(** *** Placeholders *)

(** A placeholder name: a text with no ["$"] and no ["}"]. *)
Definition is_name (s : string) : bool :=
  PyStr.lacks "$" s && PyStr.lacks "}" s.

(** [s] is empty or starts with ["$"]. *)
Definition at_dollar (s : string) : bool :=
  match s with
  | EmptyString => true
  | String c _ => Ascii.eqb c "$"
  end.



(** A template cut into literal text and placeholders. *)
Inductive chunk : Type :=
| Lit (text : string)
| Hole (name : string).

Definition chunk_text (c : chunk) : string :=
  match c with
  | Lit text => text
  | Hole name => WebAutomationAgent.placeholder name
  end.

Fixpoint render (cs : list chunk) : string :=
  match cs with
  | [] => EmptyString
  | c :: cs' => chunk_text c ++ render cs'
  end.

(** Literal text has no ["$"]; a placeholder holds a name. *)
Definition chunk_ok (c : chunk) : bool :=
  match c with
  | Lit text => PyStr.lacks "$" text
  | Hole name => is_name name
  end.

(** A chunk with its placeholder looked up in the bindings. *)
Definition fill_chunk (data : dict) (c : chunk) : string :=
  match c with
  | Lit text => text
  | Hole name =>
      match lookup name data with
      | Some val => val
      | None => WebAutomationAgent.placeholder name
      end
  end.

(** One turn of the substitution loop, on chunks. *)
Definition turn_chunk (key val : string) (c : chunk) : chunk :=
  match c with
  | Lit text => Lit text
  | Hole name => if String.eqb key name then Lit val else Hole name
  end.

(** A template with every placeholder looked up at once. *)
Definition fill_template (data : dict) (cs : list chunk) : string :=
  render (map (fun c => Lit (fill_chunk data c)) cs).

(** Bindings whose keys are names and whose values have no ["$"]. *)
Definition plain_bindings (data : dict) : bool :=
  forallb (fun kv => is_name (fst kv) && PyStr.lacks "$" (snd kv)) data.

(** *** Browsers used as inputs *)

(** Every call returns. *)
Definition responsive : world := fun _ _ => returns "".

(** The page is gone (window closed, browser crashed, session already
    closed): every call on the page raises, whatever the text of the
    error; closing the browser and stopping the driver return. *)
Definition page_gone : world :=
  fun _ c =>
    match c with
    | page_goto _ | page_wait_for_timeout _ | page_content
    | page_click _ | page_fill _ _ =>
        raises (PlaywrightError
                  "Target page, context or browser has been closed")
    | _ => returns ""
    end.

(** Navigation fails (no network); every other call returns. *)
Definition navigation_fails : world :=
  fun _ c =>
    match c with
    | page_goto _ => raises (PlaywrightError "net::ERR_NAME_NOT_RESOLVED")
    | _ => returns ""
    end.

(** A browser that stays closed once closed: calls on the page raise after
    a [browser.close()] that returned. *)
Fixpoint closed (h : history) : bool :=
  match h with
  | [] => false
  | Called browser_close (returns _) :: _ => true
  | _ :: h' => closed h'
  end.

Definition closes_for_good : world :=
  fun h c => if closed h then page_gone h c else returns "".

(** The subject field of Gmail does not take the text. *)
Definition subject_rejected : world :=
  fun _ c =>
    match c with
    | page_fill "input[aria-label='Subject']" _ =>
        raises (PlaywrightError "Timeout 30000ms exceeded.")
    | _ => returns ""
    end.

(** *** Further observations of a run *)

(** The calls of a history, in order, whatever they answered. *)
Fixpoint calls (h : history) : list call :=
  match h with
  | [] => []
  | Called c _ :: h' => c :: calls h'
  | _ :: h' => calls h'
  end.

(** The addresses the page was sent to, in order. *)
Fixpoint visited (h : history) : list string :=
  match h with
  | [] => []
  | Called (page_goto url) _ :: h' => url :: visited h'
  | _ :: h' => visited h'
  end.

(** How many times the driver was stopped in a history. *)
Fixpoint stops (h : history) : nat :=
  match h with
  | [] => 0
  | Called playwright_stop _ :: h' => S (stops h')
  | _ :: h' => stops h'
  end.

(** The ERROR records of a history, in order. *)
Fixpoint errors (h : history) : list message :=
  match h with
  | [] => []
  | Logged ERROR m :: h' => m :: errors h'
  | _ :: h' => errors h'
  end.

(** Everything printed in a history, in order. *)
Fixpoint printed (h : history) : list string :=
  match h with
  | [] => []
  | Printed s :: h' => s :: printed h'
  | _ :: h' => printed h'
  end.

(** An event that is not a call outside [allowed]. *)
Definition permits (allowed : call -> bool) (ev : event) : Prop :=
  match ev with
  | Called c _ => allowed c = true
  | _ => True
  end.

(** The calls of the executor: click, fill and the pause of one second. *)
Definition executor_call (c : call) : bool :=
  match c with
  | page_click _ | page_fill _ _ => true
  | page_wait_for_timeout ms => Z.eqb ms 1000
  | _ => false
  end.

(** Every call but a navigation. *)
Definition not_goto (c : call) : bool :=
  match c with
  | page_goto _ => false
  | _ => true
  end.

(** The text a call fills a field with, if it is a fill. *)
Definition filled_text (c : call) : option string :=
  match c with
  | page_fill _ text => Some text
  | _ => None
  end.

(** The calls that acquire the session, in the order of [__init__]. *)
Definition acquisition : list call :=
  [sync_playwright_start; chromium_launch; browser_new_context;
   context_new_page].

(** The calls of a send: on the page, and the release at the end; none
    acquires anything. *)
Definition send_call (c : call) : bool :=
  match c with
  | sync_playwright_start | chromium_launch
  | browser_new_context | context_new_page => false
  | _ => true
  end.

(** The calls of the pipeline of a send: on the page only. *)
Definition pipeline_call (c : call) : bool :=
  match c with
  | page_goto _ | page_wait_for_timeout _ | page_content
  | page_click _ | page_fill _ _ => true
  | _ => false
  end.

(** The address [navigate_to_service] opens for a service. *)
Definition service_url (s : EmailService) : string :=
  match s with
  | GMAIL => "https://mail.google.com"
  | OUTLOOK => "https://outlook.live.com"
  end.

(** The actions the planner returns for the goal [send_email] makes of a
    service. *)
Definition planned (s : EmailService) : list dict :=
  match s with
  | GMAIL => LLMClient.gmail_actions
  | OUTLOOK => LLMClient.outlook_actions
  end.

(** The [data] dict [send_email] builds from the parsed instruction. *)
Definition bindings_of (email_data : EmailInstruction) : dict :=
  [ ("recipient", recipient email_data);
    ("subject", subject email_data);
    ("body", body email_data) ].

(** Each page operation followed by the pause of one second. *)
Definition paced (ops : list call) : list call :=
  flat_map (fun op => [op; page_wait_for_timeout 1000]) ops.

(** A browser in which every call returns. *)
Definition always_returns (w : world) : Prop :=
  forall h c, exists v, w h c = returns v.

(** A browser in which only clicks and fills can raise. *)
Definition only_dispatch_fails (w : world) : Prop :=
  forall h c, is_dispatch c = false -> exists v, w h c = returns v.

(** Every click and every fill raises; every other call returns. *)
Definition no_element_found : world :=
  fun _ c =>
    if is_dispatch c
    then raises (PlaywrightError "Timeout 30000ms exceeded.")
    else returns "".

(** The browser cannot be launched; the driver starts. *)
Definition launch_fails : world :=
  fun _ c =>
    match c with
    | chromium_launch =>
        raises (PlaywrightError "Executable doesn't exist")
    | _ => returns ""
    end.

(** The pause after an action raises; every other call returns. *)
Definition pause_fails : world :=
  fun _ c =>
    match c with
    | page_wait_for_timeout 1000 =>
        raises (PlaywrightError "Target closed")
    | _ => returns ""
    end.

(** Closing the browser raises; every other call returns. *)
Definition close_fails : world :=
  fun _ c =>
    match c with
    | browser_close => raises (PlaywrightError "Connection closed")
    | _ => returns ""
    end.


(** The first entry [execute_actions] reads from an action and does not
    find, in the order it reads them. *)
Definition first_missing (action : dict) : option string :=
  match lookup "action" action with
  | None => Some "action"
  | Some action_type =>
      match lookup "selector" action with
      | None => Some "selector"
      | Some _ =>
          match lookup "description" action with
          | None => Some "description"
          | Some _ =>
              if String.eqb action_type "click" then None
              else if String.eqb action_type "fill" then
                match lookup "value" action with
                | None => Some "value"
                | Some _ => None
                end
              else None
          end
      end
  end.


(** An event that is not an ERROR record. *)
Definition no_error (ev : event) : Prop :=
  match ev with
  | Logged ERROR _ => False
  | _ => True
  end.

(** The ERROR record of a failed action of [actions]. *)
Definition failure_of (actions : list dict) (m : message) : Prop :=
  exists action e, In action actions /\ m = Failed_to_execute_action action e.

(** *** The domain of the string model, and the space-delimited token *)

(** Every character of [s] is an ASCII character (code below 128): the
    texts on which [PyStr.lower] and [PyStr.capitalize] are Python's
    [str.lower] and [str.capitalize]. *)
Definition is_ascii (s : string) : bool :=
  PyStr.all_chars (fun c => (nat_of_ascii c <? 128)%nat) s.

(** The space-delimited token at the front of [s]: the text up to the
    next space character (a tab or a line feed does not end it), or to
    the end. *)
Definition space_token (s : string) : string := PyStr.before_first " " s.

(** A ["to "] begins inside the space-delimited token at the front of
    [s]: the token ends with ["to"] and a space follows it. *)
Fixpoint cut_by_to (s : string) : bool :=
  match s with
  | EmptyString => false
  | String _ s' =>
      if PyStr.startswith " " s then false
      else PyStr.startswith "to " s || cut_by_to s'
  end.


(* ================================================================== *)
(** ** Facts about the string operations *)
(* ================================================================== *)

Module PyStrFacts.
Import PyStr.

Example split_at_every_separator :
  split "to " "send to a@b.to now" = ["send "; "a@b."; "now"].
Proof. reflexivity. Qed.

Example split_keeps_empty_pieces : split " " "a  b " = ["a"; ""; "b"; ""].
Proof. reflexivity. Qed.

Example replace_every_occurrence :
  replace "${k}" "v" "x${k}y${k}${k" = "xvyv${k".
Proof. reflexivity. Qed.

Example replace_empty_pattern : replace "" "-" "ab" = "-a-b-".
Proof. reflexivity. Qed.

Example capitalize_lowers_the_rest :
  capitalize "the Meeting" = "The meeting".
Proof. reflexivity. Qed.

Example lower_letters_only : lower "To: A@B.com" = "to: a@b.com".
Proof. reflexivity. Qed.

Lemma lower_char_not_upper (c : ascii) : is_upper (lower_char c) = false.
Proof. destruct c as [[] [] [] [] [] [] [] []]; reflexivity. Qed.

Lemma lower_char_fixed (c : ascii) :
  is_upper c = false -> lower_char c = c.
Proof. unfold lower_char. intros ->. reflexivity. Qed.

Lemma lower_no_upper (s : string) :
  all_chars (fun c => negb (is_upper c)) (lower s) = true.
Proof.
  induction s as [|c s IH]; simpl; [reflexivity|].
  rewrite lower_char_not_upper, IH. reflexivity.
Qed.

Lemma no_upper_lower_fixed (s : string) :
  all_chars (fun c => negb (is_upper c)) s = true -> lower s = s.
Proof.
  induction s as [|c s IH]; simpl; [reflexivity|].
  intros H. apply andb_true_iff in H as [Hc Hs].
  apply negb_true_iff in Hc.
  rewrite (lower_char_fixed _ Hc), (IH Hs). reflexivity.
Qed.

Lemma lower_idempotent (s : string) : lower (lower s) = lower s.
Proof. apply no_upper_lower_fixed, lower_no_upper. Qed.

(** The pieces of a split are never none. *)
Lemma split_scan_cons (sep : string) (s : string) :
  forall skip, exists piece pieces, split_scan sep skip s = piece :: pieces.
Proof.
  induction s as [|c s IH]; intros skip; simpl.
  - eauto.
  - destruct skip as [|k]; [|apply IH].
    destruct (startswith sep (String c s)); [eauto|].
    destruct (IH 0) as (p & ps & ->). eauto.
Qed.

Lemma split_scan_skip (sep : string) (s : string) :
  forall skip, split_scan sep skip s = split_scan sep 0 (drop skip s).
Proof.
  induction s as [|c s IH]; intros [|k]; try reflexivity.
  simpl. apply IH.
Qed.

(** The first piece is the text before the first separator. *)
Lemma split_hd (sep s : string) :
  exists pieces, split sep s = before_first sep s :: pieces.
Proof.
  unfold split. induction s as [|c s IH]; simpl.
  - eauto.
  - destruct (startswith sep (String c s)); [eauto|].
    destruct IH as (ps & ->). eauto.
Qed.

(** After the first separator the split starts again. *)
Lemma split_at_first (a : ascii) (sep' s rest : string) :
  after_first (String a sep') s = Some rest ->
  split (String a sep') s
  = before_first (String a sep') s :: split (String a sep') rest.
Proof.
  unfold split. induction s as [|c s IH]; intros H.
  - discriminate H.
  - cbn [after_first] in H. cbn [split_scan before_first].
    destruct (startswith (String a sep') (String c s)) eqn:E.
    + injection H as <-. f_equal.
      rewrite split_scan_skip. cbn [String.length drop].
      rewrite Nat.sub_succ, Nat.sub_0_r. reflexivity.
    + rewrite (IH H). reflexivity.
Qed.

Lemma contains_after_first (sep s : string) :
  contains sep s = true -> exists rest, after_first sep s = Some rest.
Proof.
  induction s as [|c s IH]; cbn [contains after_first]; intros H.
  - rewrite orb_false_r in H. rewrite H. eauto.
  - destruct (startswith sep (String c s)); [eauto|].
    apply IH, H.
Qed.

Lemma after_first_contains (sep s rest : string) :
  after_first sep s = Some rest -> contains sep s = true.
Proof.
  induction s as [|c s IH]; cbn [contains after_first]; intros H.
  - destruct (startswith sep ""); [reflexivity | discriminate H].
  - destruct (startswith sep (String c s)); [reflexivity|].
    apply IH, H.
Qed.

(** Pieces are made of characters of the text. *)
Lemma before_first_all_chars (P : ascii -> bool) (sep s : string) :
  all_chars P s = true -> all_chars P (before_first sep s) = true.
Proof.
  induction s as [|c s IH]; cbn [before_first all_chars]; intros H.
  - reflexivity.
  - apply andb_true_iff in H as [Hc Hs].
    destruct (startswith sep (String c s)); [reflexivity|].
    cbn [all_chars]. rewrite Hc, (IH Hs). reflexivity.
Qed.

Lemma drop_all_chars (P : ascii -> bool) (s : string) :
  forall n, all_chars P s = true -> all_chars P (drop n s) = true.
Proof.
  induction s as [|c s IH]; intros [|n] H; try assumption.
  cbn [drop]. apply IH. cbn [all_chars] in H.
  apply andb_true_iff in H. apply H.
Qed.

Lemma after_first_all_chars (P : ascii -> bool) (sep s rest : string) :
  all_chars P s = true -> after_first sep s = Some rest ->
  all_chars P rest = true.
Proof.
  induction s as [|c s IH]; cbn [after_first]; intros H E.
  - destruct (startswith sep ""); [|discriminate E].
    injection E as <-. apply drop_all_chars, H.
  - destruct (startswith sep (String c s)).
    + injection E as <-. apply drop_all_chars, H.
    + apply IH; [|exact E]. cbn [all_chars] in H.
      apply andb_true_iff in H. apply H.
Qed.

(** The candidate recipient is the first piece at [" "] of the first
    piece at ["to "]. *)
Lemma candidate_pieces (s : string) :
  before_first " " (before_first "to " s) = candidate s.
Proof.
  induction s as [|c s IH]; [reflexivity|].
  cbn [candidate before_first].
  destruct (startswith "to " (String c s)) eqn:Eto.
  - rewrite orb_true_r. reflexivity.
  - rewrite orb_false_r. cbn [before_first].
    assert (Esp : forall t, startswith " " (String c t)
                            = startswith " " (String c s)).
    { intros t. cbn [startswith]. rewrite !andb_true_r. reflexivity. }
    rewrite (Esp (before_first "to " s)).
    destruct (startswith " " (String c s)); [reflexivity|].
    rewrite IH. reflexivity.
Qed.

End PyStrFacts.

(* ================================================================== *)
(** ** The instruction parser *)
(* ================================================================== *)

Module ParserFacts.
Import PyStr PyStrFacts LLMClient.

Lemma not_contains_after_first (sep s : string) :
  contains sep s = false -> after_first sep s = None.
Proof.
  intros H. destruct (after_first sep s) eqn:E; [|reflexivity].
  apply after_first_contains in E. congruence.
Qed.

(** The second piece of a split, when the separator occurs. *)
Lemma split_second (a : ascii) (sep' s rest : string) :
  after_first (String a sep') s = Some rest ->
  exists pieces,
    split (String a sep') s
    = before_first (String a sep') s
      :: before_first (String a sep') rest :: pieces.
Proof.
  intros H. rewrite (split_at_first _ _ _ _ H).
  destruct (split_hd (String a sep') rest) as (ps & ->). eauto.
Qed.

(** [extract_recipient] does not raise, leaves the history alone and
    returns the candidate that follows the first ["to "] if it has an
    ["@"]. *)
Lemma extract_recipient_returns (instruction dflt : string) w h :
  extract_recipient instruction dflt w h
  = (Return
       match after_first "to " (lower instruction) with
       | Some rest =>
           if contains "@" (candidate rest) then candidate rest else dflt
       | None => dflt
       end, h).
Proof.
  unfold extract_recipient.
  destruct (contains "to " (lower instruction)) eqn:E.
  - destruct (contains_after_first _ _ E) as (rest & Hrest).
    rewrite Hrest.
    destruct (split_second _ _ _ _ Hrest) as (ps & ->).
    cbn [List.length Nat.ltb Nat.leb index nth_error].
    unfold bind at 1. cbn [ret].
    destruct (split_hd " " (before_first "to " rest)) as (qs & ->).
    cbn [index nth_error]. unfold bind. cbn [ret].
    rewrite candidate_pieces.
    destruct (contains "@" (candidate rest)); reflexivity.
  - rewrite (not_contains_after_first _ _ E). reflexivity.
Qed.

(** [extract_subject] does not raise either: the subject is the text
    between the first ["about "] and the next ["about "] or ["."]. *)
Lemma extract_subject_returns (instruction dflt : string) w h :
  extract_subject instruction dflt w h
  = (Return
       match after_first "about " (lower instruction) with
       | Some rest =>
           capitalize (before_first "." (before_first "about " rest))
       | None => dflt
       end, h).
Proof.
  unfold extract_subject.
  destruct (contains "about " (lower instruction)) eqn:E.
  - destruct (contains_after_first _ _ E) as (rest & Hrest).
    rewrite Hrest.
    destruct (split_second _ _ _ _ Hrest) as (ps & ->).
    cbn [List.length Nat.ltb Nat.leb index nth_error].
    unfold bind at 1. cbn [ret].
    destruct (split_hd "." (before_first "about " rest)) as (qs & ->).
    cbn [index nth_error]. unfold bind. cbn [ret]. reflexivity.
  - rewrite (not_contains_after_first _ _ E). reflexivity.
Qed.

(** The parser as a function of the instruction: one log record, no
    exception. *)
Lemma parse_email_instruction_returns (instruction : string) w h :
  parse_email_instruction instruction w h
  = (Return
       (mkEmailInstruction
          match after_first "to " (lower instruction) with
          | Some rest =>
              if contains "@" (candidate rest) then candidate rest
              else default_recipient
          | None => default_recipient
          end
          match after_first "about " (lower instruction) with
          | Some rest =>
              capitalize (before_first "." (before_first "about " rest))
          | None => default_subject
          end
          default_body
          (extract_service instruction GMAIL)),
     h ++ [Logged INFO (Text ("Parsing instruction: " ++ instruction))]).
Proof.
  unfold parse_email_instruction, bind at 1, log.
  unfold bind at 1. rewrite extract_recipient_returns.
  unfold bind at 1. rewrite extract_subject_returns.
  reflexivity.
Qed.

Lemma candidate_all_chars (P : ascii -> bool) (s : string) :
  all_chars P s = true -> all_chars P (candidate s) = true.
Proof.
  intros H. rewrite <- candidate_pieces.
  now apply before_first_all_chars, before_first_all_chars.
Qed.

(** Where the candidate of the source is the token of the
    specification: the token is ended by a space (or by the end of the
    text) and does not end with ["to"]. *)
Lemma candidate_is_token (rest : string) :
  space_delimited rest = true -> ends_with_to (token rest) = false ->
  candidate rest = token rest.
Proof.
  induction rest as [|c r IH]; [reflexivity|].
  cbn [candidate token space_delimited].
  destruct (is_whitespace c) eqn:W.
  - intros Hsp _. apply Ascii.eqb_eq in Hsp. subst c. reflexivity.
  - intros Hsp Hend.
    assert (Hc : startswith " " (String c r) = false).
    { cbn [startswith]. destruct (Ascii.eqb_spec " " c) as [<-|_];
        [discriminate W | reflexivity]. }
    rewrite Hc. cbn [orb].
    destruct (startswith "to " (String c r)) eqn:E.
    + exfalso. destruct r as [|o [|sp r']]; cbn [startswith] in E;
        try (rewrite ?andb_false_r in E; discriminate E).
      apply andb_true_iff in E as [E1 E]. apply andb_true_iff in E as [E2 E].
      apply andb_true_iff in E as [E3 _].
      apply Ascii.eqb_eq in E1, E2, E3. subst c o sp.
      vm_compute in Hend. discriminate Hend.
    + cbn [ends_with_to] in Hend. apply orb_false_iff in Hend as [_ Hend].
      rewrite (IH Hsp Hend). reflexivity.
Qed.

(** On such instructions the parser does what the specification says. *)
Lemma recipient_is_token_when_space_delimited (instruction rest : string) w h :
  after_first "to " (lower instruction) = Some rest ->
  space_delimited rest = true -> ends_with_to (token rest) = false ->
  exists email_data,
    fst (parse_email_instruction instruction w h) = Return email_data
    /\ recipient email_data = spec_recipient instruction.
Proof.
  intros Hrest Hsp Hend. rewrite parse_email_instruction_returns.
  eexists. split; [reflexivity|]. cbn [recipient]. unfold spec_recipient.
  rewrite Hrest, (candidate_is_token _ Hsp Hend). reflexivity.
Qed.

Lemma lower_app (a b : string) : lower (a ++ b) = (lower a ++ lower b)%string.
Proof. induction a as [|c a IH]; cbn; [|rewrite IH]; reflexivity. Qed.

(** ["to "] does not overlap itself: what comes before the first
    ["to "] cannot hide an earlier one. *)
Lemma startswith_to_app (c : ascii) (q R : string) :
  startswith "to " (String c q) = false ->
  startswith "to " (String c (q ++ "to " ++ R)) = false.
Proof.
  destruct q as [|q0 [|q1 q']]; cbn [append startswith]; intros H.
  - change (Ascii.eqb "o" "t") with false. cbn [andb].
    apply andb_false_r.
  - change (Ascii.eqb " " "t") with false. cbn [andb].
    rewrite !andb_false_r. reflexivity.
  - exact H.
Qed.

Lemma after_first_to_app (p R : string) :
  contains "to " p = false ->
  after_first "to " (p ++ "to " ++ R) = Some R.
Proof.
  induction p as [|c p IH]; intros H; [reflexivity|].
  cbn [contains] in H. apply orb_false_iff in H as [H1 H2].
  change (String c p ++ "to " ++ R)%string
    with (String c (p ++ "to " ++ R)).
  cbn [after_first]. rewrite (startswith_to_app _ _ _ H1).
  apply IH, H2.
Qed.

(** An instruction whose first ["to "] is followed by the address
    [John@Example.com] yields that address lower-cased. *)
Lemma recipient_lowercased_in_context (pre suf : string) w h :
  contains "to " (lower pre) = false ->
  (suf = "" \/ exists suf', suf = String " " suf') ->
  exists email_data,
    fst (parse_email_instruction (pre ++ "to John@Example.com" ++ suf) w h)
    = Return email_data
    /\ recipient email_data = "john@example.com".
Proof.
  intros Hpre Hsuf. rewrite parse_email_instruction_returns.
  eexists. split; [reflexivity|]. cbn [recipient].
  rewrite !lower_app.
  change (lower "to John@Example.com")
    with ("to " ++ "john@example.com")%string.
  assert (A : forall a b c : string,
             ((a ++ b) ++ c = a ++ (b ++ c))%string).
  { intros a b c. induction a as [|x a IH]; cbn; [|rewrite IH]; reflexivity. }
  rewrite A, (after_first_to_app _ _ Hpre).
  assert (C : candidate ("john@example.com" ++ lower suf) = "john@example.com").
  { destruct Hsuf as [->|(suf' & ->)]; reflexivity. }
  rewrite C. reflexivity.
Qed.

End ParserFacts.

Section Parser.
Import PyStr PyStrFacts ParserFacts LLMClient.

(** What the code computes as recipient in every case: the candidate is
    the first piece at [" "] of the second piece at ["to "], so it ends
    at the next space or where a further ["to "] begins. *)
Lemma recipient_scan (instruction : string) (w : world) (h : history) :
  exists email_data,
    parse_email_instruction instruction w h
    = (Return email_data,
       h ++ [Logged INFO (Text ("Parsing instruction: " ++ instruction))])
    /\ recipient email_data
       = match after_first "to " (lower instruction) with
         | Some rest =>
             if contains "@" (candidate rest) then candidate rest
             else "test@example.com"
         | None => "test@example.com"
         end.
Proof.
  eexists. split.
  - apply parse_email_instruction_returns.
  - reflexivity.
Qed.

(** The cut that C7 leaves out.  [split("to ")] splits at every
    ["to "], not at the first one only: the token ["bob@proton.to"],
    which a space follows, loses its end and the parsed recipient is
    ["bob@proton."]. *)
Lemma recipient_cut_by_later_to :
  let instruction := "Send an email to bob@proton.to about lunch" in
  cut_by_to "bob@proton.to about lunch" = true
  /\ space_token "bob@proton.to about lunch" = "bob@proton.to"
  /\ exists email_data,
       fst (parse_email_instruction instruction responsive [])
       = Return email_data
       /\ recipient email_data = "bob@proton.".
Proof.
  split; [reflexivity|]. split; [reflexivity|].
  eexists. split; reflexivity.
Qed.

(** Where no ["to "] begins inside the token, the candidate of the source
    is the space-delimited token. *)
Lemma candidate_uncut (rest : string) :
  cut_by_to rest = false -> candidate rest = space_token rest.
Proof.
  induction rest as [|c r IH]; [reflexivity|].
  unfold space_token. cbn [cut_by_to candidate before_first].
  destruct (startswith " " (String c r)); [reflexivity|].
  cbn [orb]. intros H. apply orb_false_iff in H as [H1 H2].
  rewrite H1. f_equal. exact (IH H2).
Qed.

(** C7 (as amended).  For every instruction the parser returns a value
    and never raises.  If the lower-cased instruction contains ["to "],
    the candidate recipient is the space-delimited token that follows its
    first occurrence: the text up to the next space character (no other
    whitespace ends it) or to the end of the text; the candidate is the
    parsed recipient if it contains ["@"], and the recipient is the
    default address ["test@example.com"] if it does not.  Without
    ["to "] the recipient is the default address.  Nothing is said of a
    token inside which a further ["to "] begins. *)
Theorem parser_recipient_space_token (instruction : string) (w : world)
  (h : history) :
  exists email_data,
    parse_email_instruction instruction w h
    = (Return email_data,
       h ++ [Logged INFO (Text ("Parsing instruction: " ++ instruction))])
    /\ match after_first "to " (lower instruction) with
       | Some rest =>
           cut_by_to rest = false ->
           recipient email_data
           = if contains "@" (space_token rest) then space_token rest
             else "test@example.com"
       | None => recipient email_data = "test@example.com"
       end.
Proof.
  eexists. split; [apply parse_email_instruction_returns|].
  cbn [recipient].
  destruct (after_first "to " (lower instruction)) as [rest|];
    [|reflexivity].
  intros H. rewrite (candidate_uncut _ H). reflexivity.
Qed.

Lemma parser_recipient_space_token_witness :
  let instruction := "Send an email to a@b.com about lunch" in
  after_first "to " (lower instruction) = Some "a@b.com about lunch"
  /\ cut_by_to "a@b.com about lunch" = false
  /\ exists email_data,
       fst (parse_email_instruction instruction responsive [])
       = Return email_data
       /\ recipient email_data = "a@b.com".
Proof.
  intros instruction. split; [reflexivity|]. split; [reflexivity|].
  destruct (parser_recipient_space_token instruction responsive [])
    as (e & He & Hr).
  exists e. split; [rewrite He; reflexivity|].
  exact (Hr eq_refl).
Defined.

(** C7 as stated fails: the token is delimited by the space character,
    not by whitespace.  In ["Send to a@b.com<TAB>now please"] the
    whitespace-delimited token after ["to "] is ["a@b.com"], and the
    parsed recipient is ["a@b.com<TAB>now"]; no ["to "] cuts it. *)
Lemma parser_recipient_tab_counterexample :
  let instruction :=
    ("Send to a@b.com" ++ String "009" "now please")%string in
  cut_by_to ("a@b.com" ++ String "009" "now please")%string = false
  /\ spec_recipient instruction = "a@b.com"
  /\ exists email_data,
       fst (parse_email_instruction instruction responsive [])
       = Return email_data
       /\ recipient email_data = ("a@b.com" ++ String "009" "now")%string
       /\ recipient email_data <> spec_recipient instruction.
Proof.
  split; [reflexivity|]. split; [reflexivity|].
  eexists. split; [reflexivity|]. split; [reflexivity|].
  vm_compute. discriminate.
Qed.

(** Lower-casing and capitalizing keep a text within ASCII. *)
Lemma lower_char_ascii (c : ascii) :
  (nat_of_ascii c <? 128)%nat = true ->
  (nat_of_ascii (lower_char c) <? 128)%nat = true.
Proof.
  destruct c as [[] [] [] [] [] [] [] []]; intros H;
    solve [reflexivity | exact H].
Qed.

Lemma upper_char_ascii (c : ascii) :
  (nat_of_ascii c <? 128)%nat = true ->
  (nat_of_ascii (upper_char c) <? 128)%nat = true.
Proof.
  destruct c as [[] [] [] [] [] [] [] []]; intros H;
    solve [reflexivity | exact H].
Qed.

Lemma lower_is_ascii (s : string) :
  is_ascii s = true -> is_ascii (lower s) = true.
Proof.
  unfold is_ascii. induction s as [|c s IH]; cbn [lower all_chars]; [easy|].
  intros H. apply andb_true_iff in H as [Hc Hs].
  rewrite (lower_char_ascii _ Hc), (IH Hs). reflexivity.
Qed.

Lemma capitalize_is_ascii (s : string) :
  is_ascii s = true -> is_ascii (capitalize s) = true.
Proof.
  destruct s as [|c s]; [easy|]. unfold is_ascii at 1.
  cbn [capitalize all_chars]. intros H.
  apply andb_true_iff in H as [Hc Hs].
  unfold is_ascii. cbn [all_chars]. rewrite (upper_char_ascii _ Hc).
  apply (lower_is_ascii s Hs).
Qed.

(** C10 (as amended).  For every instruction of ASCII characters the
    parsed recipient is made of ASCII characters and has no upper-case
    letter (it is its own lower-casing), so it is never a mixed-case
    spelling such as ["John@Example.com"]; and when the first ["to "] of
    the instruction is the one of ["to John@Example.com"], followed by a
    space or by the end of the text, the recipient is
    ["john@example.com"]. *)
Theorem lowercase_recipient_on_ascii (instruction : string) (w : world)
  (h : history) :
  is_ascii instruction = true ->
  exists email_data,
    fst (parse_email_instruction instruction w h) = Return email_data
    /\ is_ascii (recipient email_data) = true
    /\ all_chars (fun c => negb (is_upper c)) (recipient email_data) = true
    /\ lower (recipient email_data) = recipient email_data
    /\ recipient email_data <> "John@Example.com"
    /\ forall pre suf,
         instruction = (pre ++ "to John@Example.com" ++ suf)%string ->
         contains "to " (lower pre) = false ->
         (suf = "" \/ exists suf', suf = String " " suf') ->
         recipient email_data = "john@example.com".
Proof.
  intros Hascii. apply lower_is_ascii in Hascii.
  pose proof (parse_email_instruction_returns instruction w h) as R.
  rewrite R. eexists. split; [reflexivity|]. cbn [recipient].
  assert (L : all_chars (fun c => negb (is_upper c))
                match after_first "to " (lower instruction) with
                | Some rest =>
                    if contains "@" (candidate rest) then candidate rest
                    else default_recipient
                | None => default_recipient
                end = true).
  { destruct (after_first "to " (lower instruction)) as [rest|] eqn:E;
      [|reflexivity].
    destruct (contains "@" (candidate rest)); [|reflexivity].
    apply candidate_all_chars.
    apply (after_first_all_chars _ _ _ _ (lower_no_upper instruction) E). }
  split.
  { unfold is_ascii in *.
    destruct (after_first "to " (lower instruction)) as [rest|] eqn:E;
      [|reflexivity].
    destruct (contains "@" (candidate rest)); [|reflexivity].
    apply candidate_all_chars.
    apply (after_first_all_chars _ _ _ _ Hascii E). }
  split; [exact L|]. split; [apply no_upper_lower_fixed, L|]. split.
  - intros E. rewrite E in L. discriminate L.
  - intros pre suf E Hpre Hsuf.
    destruct (recipient_lowercased_in_context pre suf w h Hpre Hsuf)
      as (e' & He' & Hr').
    rewrite <- E, R in He'. cbn [fst] in He'. injection He' as <-.
    exact Hr'.
Qed.

Lemma lowercase_recipient_on_ascii_witness :
  let instruction := "Send an email to John@Example.com now" in
  is_ascii instruction = true
  /\ exists email_data,
       fst (parse_email_instruction instruction responsive [])
       = Return email_data
       /\ recipient email_data = "john@example.com"
       /\ lower (recipient email_data) = recipient email_data.
Proof.
  intros instruction. split; [reflexivity|].
  destruct (lowercase_recipient_on_ascii instruction responsive [] eq_refl)
    as (e & He & _ & _ & Hl & _ & Hctx).
  exists e. split; [exact He|]. split; [|exact Hl].
  apply (Hctx "Send an email " " now");
    [reflexivity | reflexivity | right; eexists; reflexivity].
Defined.

(** C10 as stated fails: ["I want to send an email to John@Example.com"]
    contains ["to John@Example.com"], but its first ["to "] is the one
    of ["want to "], and the recipient is the default address. *)
Lemma lowercase_recipient_counterexample :
  let instruction := "I want to send an email to John@Example.com" in
  is_ascii instruction = true
  /\ contains "to John@Example.com" instruction = true
  /\ exists email_data,
       fst (parse_email_instruction instruction responsive [])
       = Return email_data
       /\ recipient email_data = "test@example.com"
       /\ recipient email_data <> "john@example.com".
Proof.
  split; [reflexivity|]. split; [reflexivity|].
  eexists. split; [reflexivity|]. split; [reflexivity|].
  discriminate.
Qed.

(** C6 (as amended).  Parsing
    ["Send an email to a@b.com about the meeting using Gmail"] yields
    recipient ["a@b.com"], subject ["The meeting using gmail"] (the text
    after ["about "] runs to the next ["."], and there is none), the
    default body and the Gmail service; for that service's goal the
    planner returns the 5 Gmail actions. *)
Theorem parse_and_plan_scenario (w : world) (h : history) :
  let instruction :=
    "Send an email to a@b.com about the meeting using Gmail" in
  let email_data :=
    mkEmailInstruction "a@b.com" "The meeting using gmail"
      "This is an automated email sent by the Humaein AI agent." GMAIL in
  fst (parse_email_instruction instruction w h) = Return email_data
  /\ (forall html w' h',
         fst (analyze_ui_and_generate_actions
                html ("Send email using " ++ value (service email_data))
                w' h')
         = Return gmail_actions)
  /\ List.length gmail_actions = 5
  /\ map (lookup "selector") gmail_actions
     = [ Some "div[role='button'][gh='cm']";
         Some "input[aria-label='To']";
         Some "input[aria-label='Subject']";
         Some "div[aria-label='Message Body']";
         Some "div[role='button'][aria-label*='Send']" ].
Proof.
  cbv zeta. rewrite parse_email_instruction_returns.
  repeat split; reflexivity.
Qed.

(** C6 as stated fails: the parsed subject is not ["The meeting"]. *)
Lemma parse_and_plan_scenario_counterexample :
  fst (parse_email_instruction
         "Send an email to a@b.com about the meeting using Gmail"
         responsive [])
  <> Return
       (mkEmailInstruction "a@b.com" "The meeting"
          "This is an automated email sent by the Humaein AI agent." GMAIL).
Proof. vm_compute. discriminate. Qed.

(** C8.  The planner's actions depend on the goal alone: whatever the
    markup (and whatever the browser and the history), the planner
    returns without raising one of two fixed sequences of 5 actions, the
    Gmail one if the lower-cased goal contains ["gmail"] and the other
    one otherwise; so two invocations with the same goal return the
    same sequence. *)
Theorem planner_depends_on_goal_only (markup1 markup2 goal : string)
  (w1 w2 : world) (h1 h2 : history) :
  fst (analyze_ui_and_generate_actions markup1 goal w1 h1)
  = fst (analyze_ui_and_generate_actions markup2 goal w2 h2)
  /\ analyze_ui_and_generate_actions markup1 goal w1 h1
     = analyze_ui_and_generate_actions markup2 goal w1 h1
  /\ exists actions,
       analyze_ui_and_generate_actions markup1 goal w1 h1
       = (Return actions,
          h1 ++ [Logged INFO (Text ("Analyzing UI for goal: " ++ goal))])
       /\ actions = (if contains "gmail" (lower goal) then gmail_actions
                     else outlook_actions)
       /\ List.length actions = 5.
Proof.
  unfold analyze_ui_and_generate_actions, bind, log.
  destruct (contains "gmail" (lower goal)); cbn [ret fst].
  - repeat split. eexists. repeat split.
  - repeat split. eexists. repeat split.
Qed.

End Parser.

(* ================================================================== *)
(** ** What a computation adds to the history *)
(* ================================================================== *)

Module HistoryFacts.

Section Adds.
Variable P : event -> Prop.

Lemma adds_ret {A} (a : A) : adds P (ret a).
Proof. intros w h. exists []. cbn. now rewrite app_nil_r. Qed.

Lemma adds_raise {A} (e : exn) : adds P (@raise A e).
Proof. intros w h. exists []. cbn. now rewrite app_nil_r. Qed.

Lemma adds_log (lvl : level) (m : message) :
  P (Logged lvl m) -> adds P (log lvl m).
Proof. intros H w h. exists [Logged lvl m]. cbn. auto. Qed.

Lemma adds_print (s : string) : P (Printed s) -> adds P (print s).
Proof. intros H w h. exists [Printed s]. cbn. auto. Qed.

Lemma adds_invoke (c : call) :
  (forall r, P (Called c r)) -> adds P (invoke c).
Proof.
  intros H w h. unfold invoke.
  destruct (w h c) as [v|e]; eexists; cbn; split; eauto.
Qed.

Lemma adds_bind {A B} (m : M A) (f : A -> M B) :
  adds P m -> (forall a, adds P (f a)) -> adds P (bind m f).
Proof.
  intros Hm Hf w h. unfold bind.
  destruct (Hm w h) as (s1 & E1 & F1).
  destruct (m w h) as [[a|e] h1]; cbn [snd] in E1; subst h1.
  - destruct (Hf a w (h ++ s1)) as (s2 & E2 & F2).
    exists (s1 ++ s2). rewrite E2, app_assoc. split; [reflexivity|].
    apply Forall_app. auto.
  - exists s1. auto.
Qed.

Lemma adds_try_except {A} (body : M A) (handler : exn -> M A) :
  adds P body -> (forall e, adds P (handler e)) ->
  adds P (try_except body handler).
Proof.
  intros Hb Hh w h. unfold try_except.
  destruct (Hb w h) as (s1 & E1 & F1).
  destruct (body w h) as [[a|e] h1]; cbn [snd] in E1; subst h1.
  - exists s1. auto.
  - destruct (Hh e w (h ++ s1)) as (s2 & E2 & F2).
    exists (s1 ++ s2). rewrite E2, app_assoc. split; [reflexivity|].
    apply Forall_app. auto.
Qed.

Lemma adds_getitem (d : dict) (key : string) : adds P (getitem d key).
Proof.
  unfold getitem. destruct (lookup key d);
    [apply adds_ret | apply adds_raise].
Qed.

Lemma adds_index (l : list string) (i : nat) : adds P (index l i).
Proof.
  unfold index. destruct (nth_error l i);
    [apply adds_ret | apply adds_raise].
Qed.

End Adds.

(** One step of a proof that a computation adds only events of [P],
    following the shape of the computation; [P_log] and [P_call] say that
    [P] holds of the log records and of the calls other than the release. *)
Ltac adds_step P_log P_call :=
  first
    [ apply adds_ret
    | apply adds_raise
    | apply adds_getitem
    | apply adds_index
    | apply adds_log; apply P_log
    | apply adds_invoke; intros ?; apply P_call; discriminate
    | apply adds_bind; [|intros ?]
    | match goal with
      | |- adds _ (if ?b then _ else _) => destruct b
      | |- adds _ (match ?s with GMAIL => _ | OUTLOOK => _ end) => destruct s
      end ].

Lemma releases_app (h1 h2 : history) :
  releases (h1 ++ h2) = releases h1 + releases h2.
Proof.
  induction h1 as [|[c r|lvl m|s] h1 IH]; cbn [releases app]; auto.
  destruct c; cbn; auto.
Qed.

Lemma releases_kept (s : history) :
  Forall keeps_browser s -> releases s = 0.
Proof.
  induction 1 as [|ev s Hev _ IH]; [reflexivity|].
  destruct ev as [c r| |]; cbn [releases]; auto.
  destruct c; auto. destruct Hev.
Qed.

End HistoryFacts.

(* ================================================================== *)
(** ** The action executor: fault isolation *)
(* ================================================================== *)

Module ExecutorFacts.
Import WebAutomationAgent.

Lemma dispatched_app (h1 h2 : history) :
  dispatched (h1 ++ h2) = dispatched h1 ++ dispatched h2.
Proof.
  induction h1 as [|[c r|lvl m|s] h1 IH]; cbn [dispatched app]; auto.
  destruct (is_dispatch c); cbn [app]; [f_equal|]; exact IH.
Qed.

Lemma is_dispatch_of (data action : dict) (c : call) :
  dispatch data action = Some c -> is_dispatch c = true.
Proof.
  unfold dispatch.
  destruct (lookup "action" action) as [t|]; [|discriminate].
  destruct (lookup "selector" action) as [sel|]; [|discriminate].
  destruct (lookup "description" action) as [d|]; [|discriminate].
  destruct (String.eqb t "click"); [intros [= <-]; reflexivity|].
  destruct (String.eqb t "fill"); [|discriminate].
  destruct (lookup "value" action); [|discriminate].
  intros [= <-]. reflexivity.
Qed.

(** What one turn of the loop does for an action that has a page
    operation: the operation is sent; if it raises, the exception is
    logged with the action and the turn ends normally. *)
Lemma guarded_action_dispatch (action data : dict) (c : call) (d : string)
  (w : world) (h : history) :
  dispatch data action = Some c ->
  lookup "description" action = Some d ->
  let h1 := h ++ [Logged INFO (Text ("Executing: " ++ d))] in
  guarded_action action data w h
  = match w h1 c with
    | raises e =>
        (Return tt,
         h1 ++ [Called c (raises e);
                Logged ERROR (Failed_to_execute_action action e)])
    | returns v =>
        let h2 := h1 ++ [Called c (returns v)] in
        match w h2 (page_wait_for_timeout 1000) with
        | returns v' =>
            (Return tt,
             h2 ++ [Called (page_wait_for_timeout 1000) (returns v')])
        | raises e =>
            (Return tt,
             h2 ++ [Called (page_wait_for_timeout 1000) (raises e);
                    Logged ERROR (Failed_to_execute_action action e)])
        end
    end.
Proof.
  unfold dispatch, guarded_action, try_except, execute_action, getitem.
  intros Hc Hd. rewrite Hd in *.
  destruct (lookup "action" action) as [t|]; [|discriminate].
  destruct (lookup "selector" action) as [sel|]; [|discriminate].
  unfold bind, ret, log, invoke. cbv zeta.
  destruct (String.eqb t "click").
  - injection Hc as <-.
    destruct (w _ (page_click sel)); [|rewrite <- !app_assoc; reflexivity].
    destruct (w _ (page_wait_for_timeout 1000));
      rewrite <- ?app_assoc; reflexivity.
  - destruct (String.eqb t "fill"); [|discriminate].
    destruct (lookup "value" action) as [v|]; [|discriminate].
    injection Hc as <-.
    destruct (w _ (page_fill sel _)); [|rewrite <- !app_assoc; reflexivity].
    destruct (w _ (page_wait_for_timeout 1000));
      rewrite <- ?app_assoc; reflexivity.
Qed.

Lemma guarded_action_returns (action data : dict) (w : world)
  (h : history) :
  fst (guarded_action action data w h) = Return tt.
Proof.
  unfold guarded_action, try_except.
  destruct (execute_action action data w h) as [[[]|e] h']; reflexivity.
Qed.

(** An action without a page operation sends nothing to the page. *)
Lemma guarded_action_no_dispatch (action data : dict) (w : world)
  (h : history) :
  dispatch data action = None ->
  dispatched (snd (guarded_action action data w h)) = dispatched h.
Proof.
  unfold dispatch, guarded_action, try_except, execute_action, getitem.
  unfold bind, ret, raise, log, invoke. cbv zeta.
  destruct (lookup "action" action) as [t|];
    [|intros _; cbn; now rewrite dispatched_app, app_nil_r].
  destruct (lookup "selector" action) as [sel|];
    [|intros _; cbn; now rewrite dispatched_app, app_nil_r].
  destruct (lookup "description" action) as [d|];
    [|intros _; cbn; now rewrite dispatched_app, app_nil_r].
  destruct (String.eqb t "click"); [discriminate|].
  destruct (String.eqb t "fill").
  - destruct (lookup "value" action) as [v|]; [discriminate|].
    intros _. cbn. now rewrite !dispatched_app, !app_nil_r.
  - intros _. destruct (w _ (page_wait_for_timeout 1000)); cbn;
      now rewrite !dispatched_app, !app_nil_r.
Qed.

(** Whatever the page answers, one turn sends the page operation of its
    action, and nothing else, to the page. *)
Lemma guarded_action_dispatched (action data : dict) (w : world)
  (h : history) :
  dispatched (snd (guarded_action action data w h))
  = dispatched h ++ dispatches data [action].
Proof.
  unfold dispatches. cbn [flat_map]. rewrite app_nil_r.
  destruct (dispatch data action) as [c|] eqn:Hc.
  - pose proof (is_dispatch_of _ _ _ Hc) as Hi.
    assert (Hd : exists d, lookup "description" action = Some d).
    { unfold dispatch in Hc.
      destruct (lookup "action" action); [|discriminate].
      destruct (lookup "selector" action); [|discriminate].
      destruct (lookup "description" action); [eauto|discriminate]. }
    destruct Hd as (d & Hd).
    rewrite (guarded_action_dispatch _ _ _ _ w h Hc Hd). cbv zeta.
    destruct (w _ c).
    + destruct (w _ (page_wait_for_timeout 1000)); cbn [snd];
        rewrite !dispatched_app; cbn [dispatched is_dispatch];
        rewrite Hi, !app_nil_r; reflexivity.
    + cbn [snd]. rewrite !dispatched_app. cbn [dispatched].
      rewrite Hi, app_nil_r. reflexivity.
  - rewrite app_nil_r. apply guarded_action_no_dispatch, Hc.
Qed.

Lemma execute_actions_cons (action : dict) (actions : list dict)
  (data : dict) (w : world) (h : history) :
  execute_actions (action :: actions) data w h
  = execute_actions actions data w (snd (guarded_action action data w h)).
Proof.
  cbn [execute_actions]. unfold bind.
  pose proof (guarded_action_returns action data w h) as R.
  destruct (guarded_action action data w h) as [[[]|e] h'];
    [reflexivity | discriminate R].
Qed.

(** The loop never raises. *)
Lemma execute_actions_returns (actions : list dict) (data : dict)
  (w : world) :
  forall h, fst (execute_actions actions data w h) = Return tt.
Proof.
  induction actions as [|a l IH]; intros h; [reflexivity|].
  rewrite execute_actions_cons. apply IH.
Qed.

Lemma execute_actions_app (pre post : list dict) (data : dict) (w : world) :
  forall h,
    execute_actions (pre ++ post) data w h
    = execute_actions post data w (snd (execute_actions pre data w h)).
Proof.
  induction pre as [|a l IH]; intros h; [reflexivity|].
  cbn [app]. rewrite !execute_actions_cons. apply IH.
Qed.

Lemma dispatches_app (data : dict) (l1 l2 : list dict) :
  dispatches data (l1 ++ l2) = dispatches data l1 ++ dispatches data l2.
Proof. unfold dispatches. apply flat_map_app. Qed.

(** The loop sends the page operation of every action, in order,
    whatever the page answers. *)
Lemma execute_actions_dispatched (actions : list dict) (data : dict)
  (w : world) :
  forall h,
    dispatched (snd (execute_actions actions data w h))
    = dispatched h ++ dispatches data actions.
Proof.
  induction actions as [|a l IH]; intros h.
  - cbn. now rewrite app_nil_r.
  - rewrite execute_actions_cons, IH, guarded_action_dispatched.
    rewrite <- app_assoc. f_equal.
    symmetry. apply (dispatches_app data [a] l).
Qed.

Section ExecutorAdds.
Import HistoryFacts.
Variable P : event -> Prop.
Hypothesis P_log : forall lvl m, P (Logged lvl m).
Hypothesis P_call : forall c r, c <> browser_close -> P (Called c r).

Lemma execute_action_adds (action data : dict) :
  adds P (execute_action action data).
Proof. unfold execute_action. repeat adds_step P_log P_call. Qed.

Lemma guarded_action_adds (action data : dict) :
  adds P (guarded_action action data).
Proof.
  apply adds_try_except; [apply execute_action_adds|].
  intros e. apply adds_log, P_log.
Qed.

Lemma execute_actions_adds (actions : list dict) (data : dict) :
  adds P (execute_actions actions data).
Proof.
  induction actions as [|a l IH]; cbn [execute_actions].
  - apply adds_ret.
  - apply adds_bind; [apply guarded_action_adds | intros _; exact IH].
Qed.

End ExecutorAdds.

End ExecutorFacts.

Section Executor.
Import WebAutomationAgent ExecutorFacts.

(** C1.  Fault isolation.  Take any action list, split at one of its
    actions, any bindings and any browser.  If the page operation of that
    action raises, the executor catches the exception and logs it with
    the action (its description included); the actions after it are then
    executed from there, the loop ends without raising, and the page has
    been sent the operation of every action of the list, in order. *)
Theorem fault_isolation (w : world) (data : dict) (pre post : list dict)
  (action : dict) (c : call) (d : string) (e : exn) (h : history) :
  dispatch data action = Some c ->
  lookup "description" action = Some d ->
  w (snd (execute_actions pre data w h)
     ++ [Logged INFO (Text ("Executing: " ++ d))]) c = raises e ->
  let caught :=
    snd (execute_actions pre data w h)
    ++ [Logged INFO (Text ("Executing: " ++ d));
        Called c (raises e);
        Logged ERROR (Failed_to_execute_action action e)] in
  execute_actions (pre ++ action :: post) data w h
  = execute_actions post data w caught
  /\ (exists later,
        snd (execute_actions (pre ++ action :: post) data w h)
        = caught ++ later
        /\ dispatched later = dispatches data post)
  /\ fst (execute_actions (pre ++ action :: post) data w h) = Return tt
  /\ dispatched (snd (execute_actions (pre ++ action :: post) data w h))
     = dispatched h ++ dispatches data pre ++ c :: dispatches data post.
Proof.
  intros Hc Hd Hw caught.
  assert (E : execute_actions (pre ++ action :: post) data w h
              = execute_actions post data w caught).
  { rewrite execute_actions_app, execute_actions_cons.
    rewrite (guarded_action_dispatch _ _ _ _ w _ Hc Hd). cbv zeta.
    rewrite Hw. cbn [snd]. unfold caught.
    rewrite <- app_assoc. reflexivity. }
  split; [exact E|]. split; [|split].
  - rewrite E.
    destruct (execute_actions_adds (fun _ => True) (fun _ _ => I)
                (fun _ _ _ => I) post data w caught) as (later & El & _).
    exists later. split; [exact El|].
    pose proof (execute_actions_dispatched post data w caught) as D.
    rewrite El, dispatched_app in D.
    apply app_inv_head in D. exact D.
  - apply execute_actions_returns.
  - rewrite execute_actions_dispatched, dispatches_app.
    unfold dispatches at 2. cbn [flat_map]. rewrite Hc.
    reflexivity.
Qed.

(** The 5 Gmail actions with a subject field that rejects the text: the
    3rd action raises, the 4th and the 5th are still sent to the page. *)
Lemma fault_isolation_witness :
  let data := [("recipient", "r@x.com"); ("subject", "Hi");
               ("body", "Hello")] in
  let third := [("action", "fill");
                ("selector", "input[aria-label='Subject']");
                ("value", "${subject}");
                ("description", "Fill subject field")] in
  let run := execute_actions LLMClient.gmail_actions data
               subject_rejected [] in
  nth_error LLMClient.gmail_actions 2 = Some third
  /\ dispatch data third
     = Some (page_fill "input[aria-label='Subject']" "Hi")
  /\ fst run = Return tt
  /\ dispatched (snd run)
     = [ page_click "div[role='button'][gh='cm']";
         page_fill "input[aria-label='To']" "r@x.com";
         page_fill "input[aria-label='Subject']" "Hi";
         page_fill "div[aria-label='Message Body']" "Hello";
         page_click "div[role='button'][aria-label*='Send']" ].
Proof.
  intros data third run.
  split; [reflexivity|]. split; [reflexivity|].
  destruct (fault_isolation subject_rejected data
              (firstn 2 LLMClient.gmail_actions)
              (skipn 3 LLMClient.gmail_actions)
              third (page_fill "input[aria-label='Subject']" "Hi")
              "Fill subject field"
              (PlaywrightError "Timeout 30000ms exceeded.") []
              eq_refl eq_refl eq_refl) as (_ & _ & R & D).
  split; [exact R | exact D].
Defined.

End Executor.

(* ================================================================== *)
(** ** Placeholder substitution *)
(* ================================================================== *)

Module SubstitutionFacts.
Import PyStr WebAutomationAgent.
Local Open Scope string_scope.

Lemma append_assoc (a b c : string) : (a ++ b) ++ c = a ++ (b ++ c).
Proof. induction a as [|x a IH]; cbn; [|rewrite IH]; reflexivity. Qed.

Lemma append_empty_r (a : string) : a ++ "" = a.
Proof. induction a as [|x a IH]; cbn; [|rewrite IH]; reflexivity. Qed.

Lemma startswith_app (p s t : string) :
  startswith p s = true -> startswith p (s ++ t) = true.
Proof.
  revert s. induction p as [|a p IH]; intros [|b s]; cbn; try easy.
  intros H. apply andb_true_iff in H as [-> H]. cbn. apply IH, H.
Qed.

Lemma startswith_length (p s : string) :
  startswith p s = true -> String.length p <= String.length s.
Proof.
  revert s. induction p as [|a p IH]; intros [|b s]; cbn; try easy.
  - lia.
  - intros H. apply andb_true_iff in H as [_ H]. apply IH in H. lia.
Qed.

Lemma startswith_self (p t : string) : startswith p (p ++ t) = true.
Proof.
  induction p as [|a p IH]; cbn; [reflexivity|].
  rewrite Ascii.eqb_refl. exact IH.
Qed.

Lemma drop_self (p t : string) : drop (String.length p) (p ++ t) = t.
Proof. induction p as [|a p IH]; cbn; [destruct t|]; auto. Qed.

Lemma replace_scan_skip (old new s : string) :
  forall skip,
    replace_scan old new skip s = replace_scan old new 0 (drop skip s).
Proof.
  induction s as [|c s IH]; intros [|k]; try reflexivity.
  cbn [replace_scan drop]. apply IH.
Qed.

(** An occurrence at the front is replaced and the scan goes on after
    it. *)
Lemma replace_scan_here (a : ascii) (old' new post : string) :
  replace_scan (String a old') new 0 (String a old' ++ post)
  = new ++ replace_scan (String a old') new 0 post.
Proof.
  cbn [append replace_scan].
  change (String a (old' ++ post)) with (String a old' ++ post).
  rewrite startswith_self. f_equal.
  rewrite replace_scan_skip. cbn [String.length].
  rewrite Nat.sub_succ, Nat.sub_0_r, drop_self. reflexivity.
Qed.

(** A pattern ["$..."] with no other ["$"] that starts in [q] and fits
    in [q ++ rest] fits in [q], when [rest] starts with ["$"]. *)
Lemma startswith_before_dollar (o q rest : string) :
  lacks "$" o = true -> at_dollar rest = true ->
  startswith o (q ++ rest) = true -> startswith o q = true.
Proof.
  intros Ho Hr. revert q.
  induction o as [|a o IH]; intros q; [reflexivity|].
  unfold lacks in Ho. cbn [all_chars] in Ho.
  apply andb_true_iff in Ho as [Ha Ho]. apply negb_true_iff in Ha.
  destruct q as [|b q]; cbn [append].
  - destruct rest as [|c rest]; cbn [startswith]; [easy|].
    cbn [at_dollar] in Hr. apply Ascii.eqb_eq in Hr. subst c.
    rewrite Ha. easy.
  - cbn [startswith]. intros H. apply andb_true_iff in H as [-> H].
    cbn. apply (IH Ho), H.
Qed.

(** The scan of a text does not look past a ["$"] that follows it. *)
Lemma replace_scan_app (old' new rest : string) :
  lacks "$" old' = true -> at_dollar rest = true ->
  forall pre skip,
    replace_scan (String "$" old') new skip (pre ++ rest)
    = replace_scan (String "$" old') new skip pre
      ++ replace_scan (String "$" old') new (skip - String.length pre) rest.
Proof.
  intros Ho Hr. induction pre as [|c pre IH]; intros skip.
  - cbn. rewrite Nat.sub_0_r. reflexivity.
  - destruct skip as [|k].
    + cbn [append replace_scan].
      change (String c (pre ++ rest)) with (String c pre ++ rest).
      destruct (startswith (String "$" old') (String c pre ++ rest)) eqn:E.
      * assert (E' : startswith (String "$" old') (String c pre) = true).
        { cbn [append startswith] in E |- *.
          apply andb_true_iff in E as [-> E]. cbn.
          apply (startswith_before_dollar _ _ _ Ho Hr E). }
        rewrite E', IH, append_assoc. do 2 f_equal.
        apply startswith_length in E'. cbn [String.length] in E' |- *.
        f_equal. lia.
      * destruct (startswith (String "$" old') (String c pre)) eqn:E'.
        { apply (startswith_app _ _ rest) in E'. congruence. }
        rewrite IH. reflexivity.
    + cbn [append replace_scan String.length]. rewrite IH.
      reflexivity.
Qed.

(** A text with no ["$"] is copied. *)
Lemma replace_scan_plain (old' new u rest : string) :
  lacks "$" u = true ->
  replace_scan (String "$" old') new 0 (u ++ rest)
  = u ++ replace_scan (String "$" old') new 0 rest.
Proof.
  induction u as [|c u IH]; intros Hu; [reflexivity|].
  unfold lacks in Hu. cbn [all_chars] in Hu.
  apply andb_true_iff in Hu as [Hc Hu]. apply negb_true_iff in Hc.
  cbn [append replace_scan startswith].
  rewrite Ascii.eqb_sym, Hc. cbn. rewrite (IH Hu). reflexivity.
Qed.

Lemma lacks_app (c : ascii) (a b : string) :
  lacks c (a ++ b) = lacks c a && lacks c b.
Proof.
  unfold lacks. induction a as [|x a IH]; cbn; [reflexivity|].
  rewrite IH, andb_assoc. reflexivity.
Qed.

Lemma is_name_lacks (k : string) :
  is_name k = true -> lacks "$" k = true /\ lacks "}" k = true.
Proof. unfold is_name. intros H. apply andb_true_iff, H. Qed.

Lemma placeholder_unfold (k : string) :
  placeholder k = String "$" (String "{" (k ++ "}")).
Proof. reflexivity. Qed.

Lemma placeholder_at_dollar (k post : string) :
  at_dollar (placeholder k ++ post) = true.
Proof. reflexivity. Qed.

(** Names end at the first ["}"]: two placeholders at the same place
    have the same name. *)
Lemma same_name (k n post : string) :
  lacks "}" k = true -> lacks "}" n = true ->
  startswith (k ++ "}") (n ++ "}" ++ post) = true -> k = n.
Proof.
  revert n. induction k as [|a k IH]; intros [|b n] Hk Hn;
    cbn [append startswith].
  - reflexivity.
  - unfold lacks in Hn. cbn [all_chars] in Hn.
    apply andb_true_iff in Hn as [Hb _]. apply negb_true_iff in Hb.
    rewrite Ascii.eqb_sym, Hb. easy.
  - unfold lacks in Hk. cbn [all_chars] in Hk.
    apply andb_true_iff in Hk as [Ha _]. apply negb_true_iff in Ha.
    rewrite Ha. easy.
  - unfold lacks in Hk, Hn. cbn [all_chars] in Hk, Hn.
    apply andb_true_iff in Hk as [_ Hk].
    apply andb_true_iff in Hn as [_ Hn].
    intros H. apply andb_true_iff in H as [Hab H].
    apply Ascii.eqb_eq in Hab. subst b. f_equal.
    apply (IH n Hk Hn H).
Qed.

Lemma replace_scan_miss (old new : string) (c : ascii) (s : string) :
  startswith old (String c s) = false ->
  replace_scan old new 0 (String c s)
  = String c (replace_scan old new 0 s).
Proof. intros E. cbn [replace_scan]. rewrite E. reflexivity. Qed.

(** The placeholder of another name is copied. *)
Lemma replace_other_here (k n new post : string) :
  is_name k = true -> is_name n = true -> k <> n ->
  replace_scan (placeholder k) new 0 (placeholder n ++ post)
  = placeholder n ++ replace_scan (placeholder k) new 0 post.
Proof.
  intros Hk Hn Hkn.
  destruct (is_name_lacks _ Hk) as [Hk1 Hk2].
  destruct (is_name_lacks _ Hn) as [Hn1 Hn2].
  change (placeholder n ++ post)
    with (String "$" (String "{" (n ++ "}") ++ post)).
  change (placeholder n ++ replace_scan (placeholder k) new 0 post)
    with (String "$" (String "{" (n ++ "}")
                      ++ replace_scan (placeholder k) new 0 post)).
  rewrite replace_scan_miss.
  - f_equal. rewrite placeholder_unfold. apply replace_scan_plain.
    change (String "{" (n ++ "}")) with ("{" ++ (n ++ "}")).
    rewrite !lacks_app, Hn1. reflexivity.
  - destruct (startswith (placeholder k)
                (String "$" (String "{" (n ++ "}") ++ post))) eqn:E;
      [|reflexivity].
    exfalso. apply Hkn. rewrite placeholder_unfold in E.
    cbn [append startswith] in E. rewrite !Ascii.eqb_refl in E.
    cbn [andb] in E. rewrite append_assoc in E.
    apply (same_name _ _ _ Hk2 Hn2 E).
Qed.

Lemma placeholder_lacks (k : string) :
  lacks "$" k = true -> lacks "$" (String "{" (k ++ "}")) = true.
Proof.
  intros H. change (String "{" (k ++ "}")) with ("{" ++ (k ++ "}")).
  rewrite !lacks_app, H. reflexivity.
Qed.

(** One turn of the substitution loop around an occurrence of its own
    placeholder: the occurrence becomes the value. *)
Lemma replace_around_same (k new pre post : string) :
  lacks "$" k = true ->
  replace (placeholder k) new (pre ++ placeholder k ++ post)
  = replace (placeholder k) new pre ++ new
    ++ replace (placeholder k) new post.
Proof.
  intros Hk. change (replace (placeholder k) new)
    with (replace_scan (placeholder k) new 0).
  rewrite placeholder_unfold.
  rewrite (replace_scan_app _ new _ (placeholder_lacks _ Hk)
             (placeholder_at_dollar k post)).
  cbn [Nat.sub]. f_equal. apply replace_scan_here.
Qed.

(** One turn around the placeholder of another name: it stays. *)
Lemma replace_around_other (k n new pre post : string) :
  is_name k = true -> is_name n = true -> k <> n ->
  replace (placeholder k) new (pre ++ placeholder n ++ post)
  = replace (placeholder k) new pre ++ placeholder n
    ++ replace (placeholder k) new post.
Proof.
  intros Hk Hn Hkn. change (replace (placeholder k) new)
    with (replace_scan (placeholder k) new 0).
  destruct (is_name_lacks _ Hk) as [Hk1 _].
  rewrite (placeholder_unfold k).
  rewrite (replace_scan_app _ new _ (placeholder_lacks _ Hk1)
             (placeholder_at_dollar n post)).
  cbn [Nat.sub]. f_equal.
  rewrite <- (placeholder_unfold k).
  apply replace_other_here; assumption.
Qed.

Lemma replace_placeholders_app (d1 d2 : dict) :
  forall s,
    replace_placeholders (d1 ++ d2)%list s
    = replace_placeholders d2 (replace_placeholders d1 s).
Proof.
  induction d1 as [|[k v] d1 IH]; intros s; [reflexivity|].
  cbn [app replace_placeholders]. apply IH.
Qed.

(** The placeholder of a name that is not a key goes through the whole
    loop untouched, wherever it stands. *)
Lemma replace_placeholders_unbound (data : dict) (n : string) :
  Forall (fun k => is_name k = true) (keys data) ->
  is_name n = true -> ~ In n (keys data) ->
  forall pre post,
    replace_placeholders data (pre ++ placeholder n ++ post)
    = replace_placeholders data pre ++ placeholder n
      ++ replace_placeholders data post.
Proof.
  intros Hkeys Hn. induction data as [|[k v] data IH]; intros Hin pre post.
  - reflexivity.
  - cbn [keys map fst] in Hkeys, Hin. inversion Hkeys as [|? ? Hk Hks]; subst.
    cbn [replace_placeholders].
    rewrite replace_around_other; try assumption.
    + apply IH; [exact Hks|]. intros Hin'. apply Hin. right. exact Hin'.
    + intros ->. apply Hin. left. reflexivity.
Qed.

(** The placeholder of a key has become the key's value when the turn of
    the key is over; the later turns work on the text with the value. *)
Lemma replace_placeholders_bound (d1 d2 : dict) (k v : string) :
  Forall (fun k => is_name k = true) (keys (d1 ++ (k, v) :: d2)%list) ->
  ~ In k (keys d1) ->
  forall pre post,
    replace_placeholders (d1 ++ (k, v) :: d2)%list (pre ++ placeholder k ++ post)
    = replace_placeholders d2
        (replace_placeholders (d1 ++ [(k, v)])%list pre ++ v
         ++ replace_placeholders (d1 ++ [(k, v)])%list post).
Proof.
  intros Hkeys Hin pre post.
  unfold keys in Hkeys. rewrite map_app in Hkeys.
  apply Forall_app in Hkeys as [H1 H2].
  inversion H2 as [|? ? Hk _]; subst. cbn [fst] in Hk.
  rewrite !replace_placeholders_app. cbn [replace_placeholders].
  rewrite (replace_placeholders_unbound d1 k H1 Hk Hin).
  rewrite replace_around_same; [reflexivity|].
  apply is_name_lacks, Hk.
Qed.


(** One turn of the loop on a template of chunks. *)
Lemma replace_render (key val : string) (cs : list chunk) :
  is_name key = true -> forallb chunk_ok cs = true ->
  replace (placeholder key) val (render cs)
  = render (map (turn_chunk key val) cs).
Proof.
  intros Hk. change (replace (placeholder key) val)
    with (replace_scan (placeholder key) val 0).
  induction cs as [|[text|name] cs IH]; intros Hcs; [reflexivity| |];
    cbn [forallb chunk_ok] in Hcs; apply andb_true_iff in Hcs as [Hc Hcs];
    cbn [render chunk_text map turn_chunk].
  - rewrite placeholder_unfold at 1. rewrite replace_scan_plain by exact Hc.
    rewrite <- placeholder_unfold, (IH Hcs). reflexivity.
  - destruct (String.eqb_spec key name) as [<-|Hne].
    + rewrite placeholder_unfold at 1 2. rewrite replace_scan_here.
      rewrite <- placeholder_unfold, (IH Hcs). reflexivity.
    + rewrite replace_other_here by assumption.
      rewrite (IH Hcs). reflexivity.
Qed.

Lemma turn_chunk_ok (key val : string) (cs : list chunk) :
  lacks "$" val = true -> forallb chunk_ok cs = true ->
  forallb chunk_ok (map (turn_chunk key val) cs) = true.
Proof.
  intros Hv. induction cs as [|[text|name] cs IH]; intros Hcs;
    [reflexivity| |];
    cbn [forallb chunk_ok] in Hcs; apply andb_true_iff in Hcs as [Hc Hcs];
    cbn [map turn_chunk forallb].
  - cbn [chunk_ok]. rewrite Hc, (IH Hcs). reflexivity.
  - destruct (String.eqb key name); cbn [chunk_ok];
      rewrite ?Hv, ?Hc, (IH Hcs); reflexivity.
Qed.

Lemma fill_turn_chunk (key val : string) (data : dict) (c : chunk) :
  fill_chunk data (turn_chunk key val c) = fill_chunk ((key, val) :: data) c.
Proof.
  destruct c as [text|name]; [reflexivity|].
  cbn [turn_chunk fill_chunk lookup].
  destruct (String.eqb key name); reflexivity.
Qed.

Lemma fill_template_nil (cs : list chunk) : fill_template [] cs = render cs.
Proof.
  unfold fill_template.
  induction cs as [|[text|name] cs IH]; cbn [map render chunk_text];
    [reflexivity | |]; rewrite IH; reflexivity.
Qed.

(** With plain bindings the loop, on a template of chunks, is the
    substitution of all the placeholders at once: a bound one becomes
    its value, an unbound one stays. *)
Theorem replace_placeholders_template (data : dict) :
  plain_bindings data = true ->
  forall cs, forallb chunk_ok cs = true ->
             replace_placeholders data (render cs) = fill_template data cs.
Proof.
  induction data as [|[key val] data IH]; intros Hd cs Hcs.
  - cbn [replace_placeholders]. symmetry. apply fill_template_nil.
  - cbn [plain_bindings forallb fst snd] in Hd.
    apply andb_true_iff in Hd as [Hkv Hd].
    apply andb_true_iff in Hkv as [Hk Hv].
    cbn [replace_placeholders].
    rewrite (replace_render _ _ _ Hk Hcs).
    rewrite (IH Hd _ (turn_chunk_ok key val cs Hv Hcs)).
    unfold fill_template. rewrite map_map. f_equal.
    apply map_ext. intros c. rewrite fill_turn_chunk. reflexivity.
Qed.



End SubstitutionFacts.

Section Substitution.
Import PyStr WebAutomationAgent SubstitutionFacts.
Local Open Scope string_scope.

(** C5 (as amended).  For every fill action and every bindings map whose
    keys are placeholder names (they contain no ["$"] and no ["}"]), the
    executor fills with the action's value resolved by the loop over the
    bindings, and resolving raises nothing.  An occurrence of [${key}]
    for a bound key, wherever it stands, has become [bindings[key]] when
    the turn of that key is over (the later turns go on with the text
    that holds the value).  An occurrence of [${name}] for a placeholder
    name that is not a key stays verbatim in the resulting text. *)
Theorem placeholder_resolution (data : dict) :
  Forall (fun key => is_name key = true) (keys data) ->
  (forall action selector description v w h,
      lookup "action" action = Some "fill" ->
      lookup "selector" action = Some selector ->
      lookup "description" action = Some description ->
      lookup "value" action = Some v ->
      exists r later,
        snd (execute_action action data w h)
        = (h ++ [Logged INFO (Text ("Executing: " ++ description));
                 Called (page_fill selector (replace_placeholders data v)) r]
             ++ later)%list)
  /\ (forall d1 key val d2 pre post,
         data = (d1 ++ (key, val) :: d2)%list -> ~ In key (keys d1) ->
         replace_placeholders data (pre ++ placeholder key ++ post)
         = replace_placeholders d2
             (replace_placeholders (d1 ++ [(key, val)])%list pre ++ val
              ++ replace_placeholders (d1 ++ [(key, val)])%list post))
  /\ (forall name pre post,
         is_name name = true -> ~ In name (keys data) ->
         replace_placeholders data (pre ++ placeholder name ++ post)
         = replace_placeholders data pre ++ placeholder name
           ++ replace_placeholders data post).
Proof.
  intros Hkeys. split; [|split].
  - intros action selector description v w h Ha Hs Hd Hv.
    unfold execute_action, getitem. rewrite Ha, Hs, Hd.
    unfold bind, ret, log, invoke. cbn [String.eqb Ascii.eqb Bool.eqb].
    cbn match. rewrite Hv. cbv zeta.
    destruct (w _ (page_fill selector _)) as [r|e].
    + destruct (w _ (page_wait_for_timeout 1000)) as [r'|e'];
        eexists; eexists; rewrite <- !app_assoc; cbn [app]; reflexivity.
    + eexists. exists []. rewrite <- !app_assoc. reflexivity.
  - intros d1 key val d2 pre post -> Hin.
    apply replace_placeholders_bound; assumption.
  - intros name pre post Hn Hin.
    apply replace_placeholders_unbound; assumption.
Qed.

(** The examples of C5: with bindings [{recipient: "r@x.com"}] the value
    ["${recipient}"] resolves to ["r@x.com"] and ["${missing}"] stays. *)
Lemma placeholder_resolution_witness :
  let data := [("recipient", "r@x.com")] in
  Forall (fun key => is_name key = true) (keys data)
  /\ replace_placeholders data "${recipient}" = "r@x.com"
  /\ replace_placeholders data "${missing}" = "${missing}".
Proof.
  intros data.
  assert (Hkeys : Forall (fun key => is_name key = true) (keys data)).
  { repeat constructor. }
  split; [exact Hkeys|].
  destruct (placeholder_resolution data Hkeys) as (_ & Hbound & Hunbound).
  split.
  - exact (Hbound [] "recipient" "r@x.com" [] "" "" eq_refl (fun x => x)).
  - refine (Hunbound "missing" "" "" eq_refl _).
    intros [E|[]]. discriminate E.
Defined.

(** C5 as stated fails for keys that are not names: with the single key
    ["a}${b"], the name ["a"] is not a key and [${a}] does not stay. *)
Lemma placeholder_resolution_counterexample :
  let data := [("a}${b", "X")] in
  lookup "a" data = None
  /\ contains (placeholder "a") "${a}${b}" = true
  /\ replace_placeholders data "${a}${b}" = "X"
  /\ contains (placeholder "a") (replace_placeholders data "${a}${b}")
     = false.
Proof. repeat split. Qed.



End Substitution.

(* ================================================================== *)
(** ** The session orchestrator *)
(* ================================================================== *)

Module OrchestratorFacts.
Import WebAutomationAgent HistoryFacts ExecutorFacts ParserFacts.

(** Every exception of the pipeline is caught by the [except] of
    [send_email]. *)
Lemma send_email_guarded_returns (instruction : string) (w : world)
  (h : history) :
  fst (send_email_guarded instruction w h) = Return tt.
Proof.
  unfold send_email_guarded, try_except.
  destruct (send_email_body instruction w h) as [[[]|e] h']; reflexivity.
Qed.

(** ... and logged. *)
Lemma send_email_guarded_logs (instruction : string) (w : world)
  (h h' : history) (e : exn) :
  send_email_body instruction w h = (Raise e, h') ->
  send_email_guarded instruction w h
  = (Return tt, h' ++ [Logged ERROR (Failed_to_send_email e)]).
Proof.
  unfold send_email_guarded, try_except. intros ->. reflexivity.
Qed.

Section OrchestratorAdds.
Variable P : event -> Prop.
Hypothesis P_log : forall lvl m, P (Logged lvl m).
Hypothesis P_call : forall c r, c <> browser_close -> P (Called c r).

Lemma parse_email_instruction_adds (instruction : string) :
  adds P (LLMClient.parse_email_instruction instruction).
Proof.
  intros w h. rewrite parse_email_instruction_returns.
  eexists. split; [reflexivity|]. repeat constructor. apply P_log.
Qed.

Lemma analyze_ui_and_generate_actions_adds (html goal : string) :
  adds P (LLMClient.analyze_ui_and_generate_actions html goal).
Proof.
  unfold LLMClient.analyze_ui_and_generate_actions.
  repeat adds_step P_log P_call.
Qed.

Lemma navigate_to_service_adds (service : EmailService) :
  adds P (navigate_to_service service).
Proof. unfold navigate_to_service. repeat adds_step P_log P_call. Qed.

Lemma mock_authentication_adds (service : EmailService) :
  adds P (mock_authentication service).
Proof. unfold mock_authentication. repeat adds_step P_log P_call. Qed.

Lemma send_email_guarded_adds (instruction : string) :
  adds P (send_email_guarded instruction).
Proof.
  apply adds_try_except; [|intros e; adds_step P_log P_call].
  unfold send_email_body.
  apply adds_bind; [apply parse_email_instruction_adds|intros email_data].
  apply adds_bind; [adds_step P_log P_call|intros _].
  apply adds_bind; [apply navigate_to_service_adds|intros _].
  apply adds_bind; [apply mock_authentication_adds|intros _].
  apply adds_bind; [adds_step P_log P_call|intros html].
  apply adds_bind;
    [apply analyze_ui_and_generate_actions_adds|intros actions].
  apply adds_bind; [apply execute_actions_adds; assumption|intros _].
  adds_step P_log P_call.
Qed.

End OrchestratorAdds.

Lemma keeps_browser_call (c : call) (r : response) :
  c <> browser_close -> keeps_browser (Called c r).
Proof. destruct c; cbn; auto. Qed.

(** The pipeline never releases the browser itself. *)
Lemma send_email_guarded_keeps_browser (instruction : string) (w : world)
  (h : history) :
  releases (snd (send_email_guarded instruction w h)) = releases h.
Proof.
  destruct (send_email_guarded_adds keeps_browser (fun _ _ => I)
              keeps_browser_call instruction w h) as (s & -> & F).
  rewrite releases_app, (releases_kept _ F). lia.
Qed.

(** [send_email] is its cleanup run after the pipeline, and its
    outcome is the outcome of the cleanup. *)
Lemma send_email_is_cleanup (instruction : string) (w : world)
  (h : history) :
  send_email instruction w h
  = send_email_cleanup w (snd (send_email_guarded instruction w h)).
Proof.
  unfold send_email, try_finally.
  pose proof (send_email_guarded_returns instruction w h) as R.
  destruct (send_email_guarded instruction w h) as [[[]|e] h1];
    [|discriminate R].
  cbn [snd]. destruct (send_email_cleanup w h1) as [[[]|e] h2]; reflexivity.
Qed.

(** The release depends on the wait that comes before it in the
    cleanup: the browser is released once if that wait returns, and not
    at all if it raises. *)
Lemma send_email_releases (instruction : string) (w : world) (h : history) :
  releases (snd (send_email instruction w h))
  = releases h
    + match w (snd (send_email_guarded instruction w h))
              (page_wait_for_timeout 3000) with
      | returns _ => 1
      | raises _ => 0
      end.
Proof.
  rewrite send_email_is_cleanup.
  rewrite <- (send_email_guarded_keeps_browser instruction w h).
  generalize (snd (send_email_guarded instruction w h)). intros h1.
  unfold send_email_cleanup, bind, invoke, ret.
  destruct (w h1 (page_wait_for_timeout 3000)) as [v|e]; cbn [snd].
  - destruct (w _ browser_close) as [v1|e1]; cbn [snd].
    + destruct (w _ playwright_stop) as [v2|e2]; cbn [snd];
        rewrite !releases_app; cbn; lia.
    + rewrite !releases_app. cbn. lia.
  - rewrite releases_app. cbn. lia.
Qed.

(** The endpoint reports an error exactly when [send_email] raises,
    that is when the cleanup raises. *)
Lemma send_email_endpoint_status (instruction : string) (w : world)
  (h : history) :
  AutomationAPI.send_email_endpoint instruction w h
  = match send_email instruction w h with
    | (Return _, h') =>
        (Return [("status", "success");
                 ("message", "Email sent successfully")], h')
    | (Raise e, h') =>
        (Return [("status", "error"); ("message", str_exn e)], h')
    end.
Proof.
  unfold AutomationAPI.send_email_endpoint, try_except, bind, ret.
  destruct (send_email instruction w h) as [[[]|e] h']; reflexivity.
Qed.

(** When the page refuses every navigation, the pipeline stops there
    with the exception of the navigation. *)
Lemma send_email_body_navigation_raises (instruction : string) (w : world)
  (e : exn) (h : history) :
  (forall h0 url, w h0 (page_goto url) = raises e) ->
  exists h', send_email_body instruction w h = (Raise e, h').
Proof.
  intros Hw. unfold send_email_body. unfold bind at 1.
  rewrite parse_email_instruction_returns.
  unfold bind at 1, log. unfold bind at 1. cbn [service].
  unfold navigate_to_service.
  destruct (LLMClient.extract_service instruction GMAIL);
    unfold bind, invoke; rewrite Hw; eexists; reflexivity.
Qed.

End OrchestratorFacts.

Section Orchestrator.
Import WebAutomationAgent OrchestratorFacts.

(** C2 (the code at the failing input).  When the page is gone, the wait
    that opens the [finally] block of [send_email] raises and the block
    is left before [browser.close()]: for every instruction the send
    releases the browser zero times.  So it is in the script, which
    sends 2 instructions with one agent: the first send closes the
    browser, the second cannot release anything, and the run counts one
    release for two sends. *)
Theorem release_skipped_when_page_gone (instruction : string) (h : history) :
  releases (snd (send_email instruction page_gone h)) = releases h
  /\ List.length instructions = 2
  /\ releases (snd (main closes_for_good [])) = 1.
Proof.
  split; [|split; [reflexivity | vm_compute; reflexivity]].
  rewrite send_email_releases. cbn [page_gone]. lia.
Qed.

(** C3 (the code at the failing input).  When the page is gone, the
    exception of the navigation is caught and logged, and the exception
    raised by the wait of the [finally] block leaves [send_email]: for
    every instruction the send raises to its caller.  The script ends
    that way at its second instruction. *)
Theorem exception_leaves_send_email (instruction : string) (h : history) :
  let gone :=
    PlaywrightError "Target page, context or browser has been closed" in
  (exists h',
      send_email_guarded instruction page_gone h
      = (Return tt, h' ++ [Logged ERROR (Failed_to_send_email gone)])
      /\ send_email instruction page_gone h
         = (Raise gone,
            h' ++ [Logged ERROR (Failed_to_send_email gone);
                   Called (page_wait_for_timeout 3000) (raises gone)]))
  /\ fst (main closes_for_good []) = Raise gone.
Proof.
  intros gone. split; [|vm_compute; reflexivity].
  destruct (send_email_body_navigation_raises instruction page_gone gone h
              (fun _ _ => eq_refl)) as (h' & Hb).
  exists h'. rewrite send_email_is_cleanup.
  rewrite (send_email_guarded_logs _ _ _ _ _ Hb). split; [reflexivity|].
  cbn [snd]. unfold send_email_cleanup, bind, invoke. cbn [page_gone].
  rewrite <- app_assoc. reflexivity.
Qed.

(** C4 (the code at the failing input).  When the navigation fails,
    [send_email] logs the failure and returns, so for every instruction
    the endpoint answers with status ["success"]. *)
Theorem failure_reported_as_success (instruction : string) (h : history) :
  let failure := PlaywrightError "net::ERR_NAME_NOT_RESOLVED" in
  exists h',
    AutomationAPI.send_email_endpoint instruction navigation_fails h
    = (Return [("status", "success");
               ("message", "Email sent successfully")], h')
    /\ In (Logged ERROR (Failed_to_send_email failure)) h'.
Proof.
  intros failure.
  destruct (send_email_body_navigation_raises instruction navigation_fails
              failure h (fun _ _ => eq_refl)) as (h1 & Hb).
  rewrite send_email_endpoint_status, send_email_is_cleanup.
  rewrite (send_email_guarded_logs _ _ _ _ _ Hb). cbn [snd].
  unfold send_email_cleanup, bind, invoke, ret. cbn [navigation_fails].
  eexists. split; [reflexivity|].
  rewrite !in_app_iff. left. left. left. right. left. reflexivity.
Qed.

End Orchestrator.

(* ================================================================== *)
(** ** More on the parser: subject, recipient, letter case *)
(* ================================================================== *)

Module ParserMore.
Import PyStr PyStrFacts ParserFacts LLMClient.

Lemma lower_char_dot (c : ascii) :
  Ascii.eqb (lower_char c) "." = Ascii.eqb c ".".
Proof. destruct c as [[] [] [] [] [] [] [] []]; reflexivity. Qed.

Lemma upper_char_dot (c : ascii) :
  Ascii.eqb (upper_char c) "." = Ascii.eqb c ".".
Proof. destruct c as [[] [] [] [] [] [] [] []]; reflexivity. Qed.

Lemma upper_char_idempotent (c : ascii) :
  upper_char (upper_char c) = upper_char c.
Proof. destruct c as [[] [] [] [] [] [] [] []]; reflexivity. Qed.

Lemma lower_lacks_dot (s : string) :
  lacks "." s = true -> lacks "." (lower s) = true.
Proof.
  unfold lacks. induction s as [|c s IH]; cbn [lower all_chars]; [easy|].
  intros H. apply andb_true_iff in H as [Hc Hs].
  rewrite lower_char_dot, Hc, (IH Hs). reflexivity.
Qed.

Lemma capitalize_lacks_dot (s : string) :
  lacks "." s = true -> lacks "." (capitalize s) = true.
Proof.
  destruct s as [|c s]; [easy|]. unfold lacks at 1.
  cbn [capitalize all_chars]. intros H.
  apply andb_true_iff in H as [Hc Hs].
  unfold lacks. cbn [all_chars]. rewrite upper_char_dot, Hc.
  apply (lower_lacks_dot s Hs).
Qed.

Lemma capitalize_idempotent (s : string) :
  capitalize (capitalize s) = capitalize s.
Proof.
  destruct s as [|c s]; [reflexivity|]. cbn [capitalize].
  rewrite upper_char_idempotent, lower_idempotent. reflexivity.
Qed.

(** The text before the first occurrence of a character does not hold
    that character. *)
Lemma before_first_lacks (c : ascii) (s : string) :
  lacks c (before_first (String c "") s) = true.
Proof.
  unfold lacks. induction s as [|x s IH]; [reflexivity|].
  cbn [before_first startswith].
  destruct (Ascii.eqb_spec c x) as [<-|Hne]; [reflexivity|].
  cbn [andb all_chars]. rewrite IH, andb_true_r.
  apply negb_true_iff, Ascii.eqb_neq. congruence.
Qed.

Lemma candidate_lacks_space (s : string) : lacks " " (candidate s) = true.
Proof.
  rewrite <- candidate_pieces. apply before_first_lacks.
Qed.

Lemma before_first_empty (sep : string) (s : string) :
  before_first sep s = "" <-> s = "" \/ startswith sep s = true.
Proof.
  destruct s as [|c s]; cbn [before_first].
  - split; auto.
  - destruct (startswith sep (String c s)).
    + split; auto.
    + split; [discriminate|]. intros [H|H]; discriminate H.
Qed.

Lemma capitalize_empty (s : string) : capitalize s = "" <-> s = "".
Proof. destruct s; cbn [capitalize]; split; congruence. Qed.

End ParserMore.

Section ParserExtras.
Import PyStr PyStrFacts ParserFacts ParserMore LLMClient.

(** X1.  The parsed recipient always holds an ["@"] and never a space,
    whatever the instruction. *)
Theorem recipient_has_at_and_no_space (instruction : string) (w : world)
  (h : history) :
  exists email_data,
    fst (parse_email_instruction instruction w h) = Return email_data
    /\ contains "@" (recipient email_data) = true
    /\ lacks " " (recipient email_data) = true.
Proof.
  rewrite parse_email_instruction_returns. eexists.
  split; [reflexivity|]. cbn [recipient].
  destruct (after_first "to " (lower instruction)) as [rest|];
    [|split; reflexivity].
  destruct (contains "@" (candidate rest)) eqn:E; [|split; reflexivity].
  split; [exact E | apply candidate_lacks_space].
Qed.

(** X2.  The subject of an instruction of ASCII characters is made of
    ASCII characters; without ["about "] in the lower-cased instruction
    it is the default ["Automated Email"]; with it, the subject holds no
    ["."] and is in the shape [capitalize] gives (so the letter case the
    user typed is lost). *)
Theorem subject_shape (instruction : string) (w : world) (h : history) :
  is_ascii instruction = true ->
  exists email_data,
    fst (parse_email_instruction instruction w h) = Return email_data
    /\ is_ascii (subject email_data) = true
    /\ if contains "about " (lower instruction)
       then lacks "." (subject email_data) = true
            /\ capitalize (subject email_data) = subject email_data
       else subject email_data = "Automated Email".
Proof.
  intros Hascii. apply lower_is_ascii in Hascii.
  rewrite parse_email_instruction_returns. eexists.
  split; [reflexivity|]. cbn [subject].
  destruct (contains "about " (lower instruction)) eqn:E.
  - destruct (contains_after_first _ _ E) as (rest & Hrest). rewrite Hrest.
    split; [|split].
    + apply capitalize_is_ascii. unfold is_ascii in *.
      apply before_first_all_chars, before_first_all_chars.
      apply (after_first_all_chars _ _ _ _ Hascii Hrest).
    + apply capitalize_lacks_dot, before_first_lacks.
    + apply capitalize_idempotent.
  - rewrite (not_contains_after_first _ _ E). split; reflexivity.
Qed.

Lemma subject_shape_witness :
  let instruction := "Tell Bob about The BIG Launch. Thanks" in
  is_ascii instruction = true
  /\ exists email_data,
       fst (parse_email_instruction instruction responsive [])
       = Return email_data
       /\ lacks "." (subject email_data) = true
       /\ capitalize (subject email_data) = subject email_data.
Proof.
  intros instruction. split; [reflexivity|].
  destruct (subject_shape instruction responsive [] eq_refl)
    as (e & He & _ & Hs).
  exists e. split; [exact He | exact Hs].
Defined.

(** X3.  An ["about "] gives an empty subject, not the default one,
    exactly when nothing follows it or what follows starts with ["."]
    or with another ["about "]. *)
Theorem subject_empty (instruction rest : string) (w : world) (h : history) :
  after_first "about " (lower instruction) = Some rest ->
  exists email_data,
    fst (parse_email_instruction instruction w h) = Return email_data
    /\ (subject email_data = ""
        <-> rest = "" \/ startswith "." rest = true
            \/ startswith "about " rest = true).
Proof.
  intros Hrest. rewrite parse_email_instruction_returns. eexists.
  split; [reflexivity|]. cbn [subject]. rewrite Hrest.
  rewrite capitalize_empty, before_first_empty, before_first_empty.
  split.
  - intros [[H|H]|H]; auto.
    right. left. revert H. destruct rest as [|c r]; [easy|].
    cbn [before_first].
    destruct (startswith "about " (String c r)); [easy|].
    cbn [startswith]. easy.
  - intros [H|[H|H]]; auto.
    destruct rest as [|c r]; [auto|]. cbn [before_first].
    destruct (startswith "about " (String c r)); [auto|].
    right. cbn [startswith] in H |- *. exact H.
Qed.

Lemma subject_empty_witness :
  after_first "about " (lower "Send an email to a@b.com about ") = Some ""
  /\ exists email_data,
       fst (parse_email_instruction "Send an email to a@b.com about "
              responsive []) = Return email_data
       /\ subject email_data = "".
Proof.
  split; [reflexivity|].
  destruct (subject_empty "Send an email to a@b.com about " ""
              responsive [] eq_refl) as (e & He & Hs).
  exists e. split; [exact He|]. apply Hs. left. reflexivity.
Defined.

(** X4.  The parser reads the lower-cased instruction only: two
    instructions that differ in letter case alone parse to the same
    [EmailInstruction]. *)
Theorem parser_ignores_case (i1 i2 : string) (w1 w2 : world)
  (h1 h2 : history) :
  lower i1 = lower i2 ->
  fst (parse_email_instruction i1 w1 h1)
  = fst (parse_email_instruction i2 w2 h2).
Proof.
  intros E. rewrite !parse_email_instruction_returns. cbn [fst].
  unfold extract_service. rewrite E. reflexivity.
Qed.

Lemma parser_ignores_case_witness :
  lower "SEND AN EMAIL TO A@B.COM ABOUT LUNCH."
  = lower "send an email to a@b.com about lunch."
  /\ fst (parse_email_instruction "SEND AN EMAIL TO A@B.COM ABOUT LUNCH."
            responsive [])
     = fst (parse_email_instruction "send an email to a@b.com about lunch."
              page_gone []).
Proof.
  split; [reflexivity|].
  exact (parser_ignores_case _ _ responsive page_gone [] [] eq_refl).
Defined.

End ParserExtras.

(* ================================================================== *)
(** ** More on the executor: malformed actions, error records, calls *)
(* ================================================================== *)

Module ExecutorMore.
Import WebAutomationAgent HistoryFacts ExecutorFacts.

Lemma calls_app (h1 h2 : history) : calls (h1 ++ h2) = calls h1 ++ calls h2.
Proof.
  induction h1 as [|[c r|lvl m|s] h1 IH]; cbn [calls app]; auto.
  now rewrite IH.
Qed.

Lemma errors_app (h1 h2 : history) :
  errors (h1 ++ h2) = errors h1 ++ errors h2.
Proof.
  induction h1 as [|[c r|[] m|s] h1 IH]; cbn [errors app]; auto.
  now rewrite IH.
Qed.

Lemma errors_none (s : history) : Forall no_error s -> errors s = [].
Proof.
  induction 1 as [|ev s Hev _ IH]; [reflexivity|].
  destruct ev as [c r|[] m|p]; cbn [errors]; auto. destruct Hev.
Qed.

Lemma adds_weaken (P Q : event -> Prop) {A} (m : M A) :
  (forall ev, P ev -> Q ev) -> adds P m -> adds Q m.
Proof.
  intros HPQ Hm w h. destruct (Hm w h) as (s & E & F).
  exists s. split; [exact E|]. apply (Forall_impl _ HPQ F).
Qed.

(** One step of a proof that a computation adds only events of a given
    kind, the kind being decided by computation. *)
Ltac footprint_step :=
  first
    [ apply adds_ret
    | apply adds_raise
    | apply adds_getitem
    | apply adds_index
    | apply adds_log; solve [cbn; auto]
    | apply adds_invoke; intros ?; solve [cbn; auto]
    | apply adds_bind; [|intros ?]
    | match goal with
      | |- adds _ (if ?b then _ else _) => destruct b
      | |- adds _ (match ?s with GMAIL => _ | OUTLOOK => _ end) => destruct s
      end ].

(** The [try] of a turn logs no ERROR record itself. *)
Lemma execute_action_no_error (action data : dict) :
  adds no_error (execute_action action data).
Proof. unfold execute_action. repeat footprint_step. Qed.

(** The [try] of a turn calls the page for a click, a fill or the pause
    only. *)
Lemma execute_action_calls (action data : dict) :
  adds (permits executor_call) (execute_action action data).
Proof. unfold execute_action. repeat footprint_step. Qed.

Lemma guarded_action_calls (action data : dict) :
  adds (permits executor_call) (guarded_action action data).
Proof.
  apply adds_try_except; [apply execute_action_calls|].
  intros e. footprint_step.
Qed.

Lemma execute_actions_calls (actions : list dict) (data : dict) :
  adds (permits executor_call) (execute_actions actions data).
Proof.
  induction actions as [|a l IH]; cbn [execute_actions].
  - apply adds_ret.
  - apply adds_bind; [apply guarded_action_calls | intros _; exact IH].
Qed.

(** A turn logs one ERROR record, for its action, or none. *)
Lemma guarded_action_errors (action data : dict) (w : world) (h : history) :
  errors (snd (guarded_action action data w h)) = errors h
  \/ exists e,
       errors (snd (guarded_action action data w h))
       = errors h ++ [Failed_to_execute_action action e].
Proof.
  unfold guarded_action, try_except.
  destruct (execute_action_no_error action data w h) as (s & E & F).
  destruct (execute_action action data w h) as [[[]|e] h1];
    cbn [snd] in E; subst h1.
  - left. cbn [snd]. rewrite errors_app, (errors_none _ F).
    apply app_nil_r.
  - right. exists e. unfold log. cbn [snd].
    rewrite !errors_app, (errors_none _ F), app_nil_r. reflexivity.
Qed.

End ExecutorMore.

Section ExecutorExtras.
Import WebAutomationAgent HistoryFacts ExecutorFacts ExecutorMore.

(** X5.  An action that lacks an entry the loop reads ([action],
    [selector], [description], and [value] for a fill) makes no call on
    the browser at all, not even the pause: the turn ends normally with
    one ERROR record, the [KeyError] of the first entry missed. *)
Theorem missing_key_is_logged (action data : dict) (key : string)
  (w : world) (h : history) :
  first_missing action = Some key ->
  fst (guarded_action action data w h) = Return tt
  /\ calls (snd (guarded_action action data w h)) = calls h
  /\ errors (snd (guarded_action action data w h))
     = errors h ++ [Failed_to_execute_action action (KeyError key)].
Proof.
  unfold first_missing, guarded_action, try_except, execute_action, getitem.
  unfold bind, ret, raise, log, invoke. cbv zeta.
  destruct (lookup "action" action) as [t|];
    [|intros [= <-]; cbn [fst snd];
      rewrite calls_app, errors_app; cbn; rewrite app_nil_r; auto].
  destruct (lookup "selector" action) as [s|];
    [|intros [= <-]; cbn [fst snd];
      rewrite calls_app, errors_app; cbn; rewrite app_nil_r; auto].
  destruct (lookup "description" action) as [d|];
    [|intros [= <-]; cbn [fst snd];
      rewrite calls_app, errors_app; cbn; rewrite app_nil_r; auto].
  destruct (String.eqb t "click"); [discriminate|].
  destruct (String.eqb t "fill"); [|discriminate].
  destruct (lookup "value" action) as [v|]; [discriminate|].
  intros [= <-]. cbn [fst snd].
  rewrite !calls_app, !errors_app. cbn. rewrite !app_nil_r. auto.
Qed.

Lemma missing_key_is_logged_witness :
  let action := [("action", "fill"); ("selector", "input[name='q']");
                 ("description", "Fill the query")] in
  first_missing action = Some "value"
  /\ calls (snd (guarded_action action [] page_gone [])) = []
  /\ errors (snd (guarded_action action [] page_gone []))
     = [Failed_to_execute_action action (KeyError "value")].
Proof.
  intros action. split; [reflexivity|].
  destruct (missing_key_is_logged action [] "value" page_gone [] eq_refl)
    as (_ & Hc & He).
  split; [exact Hc | exact He].
Defined.

(** X6.  An action of a kind other than [click] and [fill] is skipped
    without a word: the page gets no operation, only the pause, and an
    ERROR record is logged only if that pause raises. *)
Theorem unknown_action_is_skipped (action data : dict) (kind s d : string)
  (w : world) (h : history) :
  lookup "action" action = Some kind ->
  String.eqb kind "click" = false -> String.eqb kind "fill" = false ->
  lookup "selector" action = Some s ->
  lookup "description" action = Some d ->
  fst (guarded_action action data w h) = Return tt
  /\ calls (snd (guarded_action action data w h))
     = calls h ++ [page_wait_for_timeout 1000]
  /\ errors (snd (guarded_action action data w h))
     = errors h
       ++ match w (h ++ [Logged INFO (Text ("Executing: " ++ d))])
                  (page_wait_for_timeout 1000) with
          | returns _ => []
          | raises e => [Failed_to_execute_action action e]
          end.
Proof.
  intros Ha Hc Hf Hs Hd.
  unfold guarded_action, try_except, execute_action, getitem.
  rewrite Ha, Hs, Hd. unfold bind, ret, log, invoke. rewrite Hc, Hf.
  destruct (w _ (page_wait_for_timeout 1000)) as [v|e]; cbn [fst snd];
    rewrite !calls_app, !errors_app; cbn; rewrite ?app_nil_r; auto.
Qed.

Lemma unknown_action_is_skipped_witness :
  let action := [("action", "hover"); ("selector", "#menu");
                 ("description", "Hover the menu")] in
  lookup "action" action = Some "hover"
  /\ calls (snd (guarded_action action [] responsive []))
     = [page_wait_for_timeout 1000]
  /\ errors (snd (guarded_action action [] responsive [])) = [].
Proof.
  intros action. split; [reflexivity|].
  destruct (unknown_action_is_skipped action [] "hover" "#menu"
              "Hover the menu" responsive []
              eq_refl eq_refl eq_refl eq_refl eq_refl) as (_ & Hc & He).
  split; [exact Hc | exact He].
Defined.

(** X7.  The loop logs at most one ERROR record per action, each the
    failure of one of its actions, and nothing else at level ERROR. *)
Theorem at_most_one_error_per_action (actions : list dict) (data : dict)
  (w : world) (h : history) :
  exists new,
    errors (snd (execute_actions actions data w h)) = errors h ++ new
    /\ List.length new <= List.length actions
    /\ Forall (failure_of actions) new.
Proof.
  revert h. induction actions as [|a l IH]; intros h.
  - exists []. cbn. rewrite app_nil_r. auto.
  - rewrite execute_actions_cons.
    destruct (IH (snd (guarded_action a data w h))) as (new & E & L & F).
    assert (F' : Forall (failure_of (a :: l)) new).
    { apply (Forall_impl _ (fun m (H : failure_of l m) =>
               match H with
               | ex_intro _ x (ex_intro _ e (conj Hin Hm)) =>
                   ex_intro _ x (ex_intro _ e (conj (or_intror Hin) Hm))
               end) F). }
    destruct (guarded_action_errors a data w h) as [G|(e & G)];
      rewrite G in E.
    + exists new. split; [exact E|]. split; [cbn; lia | exact F'].
    + exists (Failed_to_execute_action a e :: new).
      rewrite <- app_assoc in E. split; [exact E|].
      split; [cbn; lia|]. constructor; [|exact F'].
      exists a, e. split; [left; reflexivity | reflexivity].
Qed.

(** X8.  The pause is inside the [try] of the turn: when the page
    operation of an action returns and the pause after it raises, the
    action is reported as failed although its operation was carried
    out. *)
Theorem pause_failure_is_reported (action data : dict) (c : call)
  (d v : string) (e : exn) (w : world) (h : history) :
  dispatch data action = Some c ->
  lookup "description" action = Some d ->
  w (h ++ [Logged INFO (Text ("Executing: " ++ d))]) c = returns v ->
  w ((h ++ [Logged INFO (Text ("Executing: " ++ d))])
       ++ [Called c (returns v)]) (page_wait_for_timeout 1000) = raises e ->
  dispatched (snd (guarded_action action data w h)) = dispatched h ++ [c]
  /\ errors (snd (guarded_action action data w h))
     = errors h ++ [Failed_to_execute_action action e].
Proof.
  intros Hc Hd Hop Hwait.
  rewrite (guarded_action_dispatch _ _ _ _ w h Hc Hd). cbv zeta.
  rewrite Hop, Hwait. cbn [snd].
  rewrite !dispatched_app, !errors_app. cbn.
  rewrite (is_dispatch_of _ _ _ Hc), !app_nil_r. auto.
Qed.

Lemma pause_failure_is_reported_witness :
  let action := [("action", "click"); ("selector", "button[aria-label='Send']");
                 ("description", "Click send button")] in
  dispatch [] action = Some (page_click "button[aria-label='Send']")
  /\ dispatched (snd (guarded_action action [] pause_fails []))
     = [page_click "button[aria-label='Send']"]
  /\ errors (snd (guarded_action action [] pause_fails []))
     = [Failed_to_execute_action action (PlaywrightError "Target closed")].
Proof.
  intros action. split; [reflexivity|].
  exact (pause_failure_is_reported action []
           (page_click "button[aria-label='Send']") "Click send button" ""
           (PlaywrightError "Target closed") pause_fails []
           eq_refl eq_refl eq_refl eq_refl).
Defined.

(** X9.  Whatever the actions and the bindings, the loop calls the
    browser for clicks, fills and pauses of one second only: it never
    navigates, reads the page, or closes anything. *)
Theorem executor_footprint (actions : list dict) (data : dict) (w : world)
  (h : history) :
  exists suffix,
    snd (execute_actions actions data w h) = h ++ suffix
    /\ Forall (permits executor_call) suffix.
Proof. apply execute_actions_calls. Qed.

End ExecutorExtras.

(* ================================================================== *)
(** ** More on the orchestrator: what a send calls, and in which order *)
(* ================================================================== *)

Module OrchestratorMore.
Import PyStr WebAutomationAgent HistoryFacts ExecutorFacts ExecutorMore.
Import ParserFacts OrchestratorFacts.

Lemma visited_app (h1 h2 : history) :
  visited (h1 ++ h2) = visited h1 ++ visited h2.
Proof.
  induction h1 as [|[c r|lvl m|s] h1 IH]; cbn [visited app]; auto.
  destruct c; cbn [app]; auto. now rewrite IH.
Qed.

Lemma stops_app (h1 h2 : history) : stops (h1 ++ h2) = stops h1 + stops h2.
Proof.
  induction h1 as [|[c r|lvl m|s] h1 IH]; cbn [stops app]; auto.
  destruct c; cbn; auto.
Qed.

Lemma visited_none (s : history) :
  Forall (permits not_goto) s -> visited s = [].
Proof.
  induction 1 as [|ev s Hev _ IH]; [reflexivity|].
  destruct ev as [c r| |]; cbn [visited]; auto.
  destruct c; auto. discriminate Hev.
Qed.

Lemma stops_none (s : history) :
  Forall (permits pipeline_call) s -> stops s = 0.
Proof.
  induction 1 as [|ev s Hev _ IH]; [reflexivity|].
  destruct ev as [c r| |]; cbn [stops]; auto.
  destruct c; auto. discriminate Hev.
Qed.

Lemma adds_try_finally (P : event -> Prop) {A} (body : M A)
  (cleanup : M unit) :
  adds P body -> adds P cleanup -> adds P (try_finally body cleanup).
Proof.
  intros Hb Hc w h. unfold try_finally.
  destruct (Hb w h) as (s1 & E1 & F1).
  destruct (body w h) as [r h1]. cbn [snd] in E1. subst h1.
  destruct (Hc w (h ++ s1)) as (s2 & E2 & F2).
  exists (s1 ++ s2).
  destruct (cleanup w (h ++ s1)) as [[[]|e] h2]; cbn [snd] in E2 |- *;
    subst h2; rewrite app_assoc; (split; [reflexivity|]);
    apply Forall_app; auto.
Qed.

(** What follows a computation in a [bind] only extends its history. *)
Lemma bind_suffix (P : event -> Prop) {A B} (m : M A) (f : A -> M B)
  (w : world) (h : history) :
  (forall a, adds P (f a)) ->
  exists later,
    snd (bind m f w h) = snd (m w h) ++ later /\ Forall P later.
Proof.
  intros Hf. unfold bind. destruct (m w h) as [[a|e] h1]; cbn [snd].
  - apply Hf.
  - exists []. rewrite app_nil_r. auto.
Qed.

Lemma bind_returns {A B} (m : M A) (f : A -> M B) (w : world) (h : history)
  (a : A) :
  fst (m w h) = Return a -> bind m f w h = f a w (snd (m w h)).
Proof.
  unfold bind. destruct (m w h) as [[a'|e] h1]; cbn [fst snd];
    [intros [= ->]; reflexivity | discriminate].
Qed.

Lemma executor_call_not_goto (ev : event) :
  permits executor_call ev -> permits not_goto ev.
Proof. destruct ev as [c r| |]; auto. destruct c; cbn; auto. Qed.

Lemma executor_call_pipeline (ev : event) :
  permits executor_call ev -> permits pipeline_call ev.
Proof. destruct ev as [c r| |]; auto. destruct c; cbn; auto. Qed.

Lemma pipeline_call_send (ev : event) :
  permits pipeline_call ev -> permits send_call ev.
Proof. destruct ev as [c r| |]; auto. destruct c; cbn; auto. Qed.

(** The navigation goes to the address of the service, once, whatever
    the page answers. *)
Lemma navigate_to_service_visits (s : EmailService) (w : world)
  (h : history) :
  visited (snd (navigate_to_service s w h)) = visited h ++ [service_url s].
Proof.
  unfold navigate_to_service, bind, invoke, log, ret.
  destruct s; cbn [service_url];
    destruct (w h (page_goto _)) as [v|e]; cbn [snd];
    try destruct (w _ (page_wait_for_timeout 3000)) as [v'|e']; cbn [snd];
    rewrite !visited_app; cbn; rewrite ?app_nil_r; reflexivity.
Qed.

(** After the navigation the pipeline does not navigate again. *)
Lemma after_navigation_adds (email_data : EmailInstruction) :
  adds (permits not_goto)
    (mock_authentication (service email_data) ;;
     html <- invoke page_content ;;
     actions <- LLMClient.analyze_ui_and_generate_actions
                  html ("Send email using " ++ value (service email_data)) ;;
     execute_actions actions (bindings_of email_data) ;;
     log INFO (Text "Email sent successfully!")).
Proof.
  unfold mock_authentication, LLMClient.analyze_ui_and_generate_actions.
  repeat footprint_step;
    apply (adds_weaken _ _ _ executor_call_not_goto),
      execute_actions_calls.
Qed.

Lemma send_email_body_visits (instruction : string) (w : world)
  (h : history) :
  visited (snd (send_email_body instruction w h))
  = visited h ++ [service_url (LLMClient.extract_service instruction GMAIL)].
Proof.
  unfold send_email_body. unfold bind at 1.
  rewrite parse_email_instruction_returns.
  unfold bind at 1, log at 1.
  match goal with
  | |- context [bind (navigate_to_service ?s) ?K w ?h2] =>
      destruct (bind_suffix (permits not_goto)
                  (navigate_to_service s) K w h2) as (later & E & F)
  end.
  { intros _. apply after_navigation_adds. }
  rewrite E, visited_app, navigate_to_service_visits, (visited_none _ F).
  rewrite !visited_app. cbn. rewrite !app_nil_r. reflexivity.
Qed.

Lemma send_email_cleanup_adds :
  adds (permits (fun c => not_goto c && send_call c)) send_email_cleanup.
Proof. unfold send_email_cleanup. repeat footprint_step. Qed.

(** The pipeline of a send calls the page only. *)
Lemma send_email_guarded_calls (instruction : string) :
  adds (permits pipeline_call) (send_email_guarded instruction).
Proof.
  apply adds_try_except; [|intros e; footprint_step].
  unfold send_email_body.
  apply adds_bind;
    [apply parse_email_instruction_adds; intros; exact I|intros email_data].
  unfold navigate_to_service, mock_authentication,
    LLMClient.analyze_ui_and_generate_actions.
  repeat footprint_step;
    apply (adds_weaken _ _ _ executor_call_pipeline),
      execute_actions_calls.
Qed.

(** The planner's answer to the goal [send_email] makes of a service. *)
Lemma analyze_planned (s : EmailService) (html : string) (w : world)
  (h : history) :
  LLMClient.analyze_ui_and_generate_actions
    html ("Send email using " ++ value s) w h
  = (Return (planned s),
     h ++ [Logged INFO
             (Text ("Analyzing UI for goal: Send email using " ++ value s))]).
Proof. destruct s; reflexivity. Qed.

(** When only clicks and fills can fail, the pipeline reaches the
    executor and, after it, its last line. *)
Lemma send_email_body_runs (instruction : string) (email_data : EmailInstruction)
  (w : world) (h : history) :
  only_dispatch_fails w ->
  fst (LLMClient.parse_email_instruction instruction w h) = Return email_data ->
  exists h4,
    send_email_body instruction w h
    = (Return tt,
       snd (execute_actions (planned (service email_data))
              (bindings_of email_data) w h4)
       ++ [Logged INFO (Text "Email sent successfully!")])
    /\ calls h4
       = calls h ++ [page_goto (service_url (service email_data));
                     page_wait_for_timeout 3000;
                     page_wait_for_timeout 2000; page_content]
    /\ errors h4 = errors h.
Proof.
  intros Hw He. rewrite parse_email_instruction_returns in He.
  cbn [fst] in He. injection He as <-.
  unfold send_email_body, bindings_of. unfold bind at 1.
  rewrite parse_email_instruction_returns. cbn [service].
  destruct (LLMClient.extract_service instruction GMAIL);
    unfold navigate_to_service, mock_authentication;
    unfold bind at 1, log at 1;
    unfold bind at 1; unfold bind at 1; unfold bind at 1, invoke at 1;
    (match goal with
     | |- context [w ?hh (page_goto ?u)] =>
         destruct (Hw hh (page_goto u) eq_refl) as [v1 ->]
     end);
    unfold log at 1; unfold bind at 1, invoke at 1;
    (match goal with
     | |- context [w ?hh (page_wait_for_timeout 3000)] =>
         destruct (Hw hh (page_wait_for_timeout 3000) eq_refl) as [v2 ->]
     end);
    unfold ret at 1; unfold bind at 1; unfold bind at 1, log at 1;
    unfold bind at 1, invoke at 1;
    (match goal with
     | |- context [w ?hh (page_wait_for_timeout 2000)] =>
         destruct (Hw hh (page_wait_for_timeout 2000) eq_refl) as [v3 ->]
     end);
    unfold ret at 1; unfold bind at 1, invoke at 1;
    (match goal with
     | |- context [w ?hh page_content] =>
         destruct (Hw hh page_content eq_refl) as [v4 ->]
     end);
    unfold bind at 1; rewrite analyze_planned;
    unfold bind at 1;
    (match goal with
     | |- context [execute_actions ?l ?d w ?hh] =>
         pose proof (execute_actions_returns l d w hh) as R;
         exists hh;
         destruct (execute_actions l d w hh) as [[[]|e] h5];
         [|discriminate R]
     end);
    (split; [reflexivity|]);
    rewrite !calls_app, !errors_app; cbn; rewrite <- ?app_assoc, ?app_nil_r;
    split; reflexivity.
Qed.

(** When every call returns, the cleanup runs to its end. *)
Lemma send_email_cleanup_runs (w : world) (h : history) :
  (forall h0 c, is_dispatch c = false -> exists v, w h0 c = returns v) ->
  exists v1 v2 v3,
    send_email_cleanup w h
    = (Return tt,
       h ++ [Called (page_wait_for_timeout 3000) (returns v1);
             Called browser_close (returns v2);
             Called playwright_stop (returns v3)]).
Proof.
  intros Hw. unfold send_email_cleanup, bind, invoke, ret.
  destruct (Hw h (page_wait_for_timeout 3000) eq_refl) as [v1 ->].
  destruct (Hw (h ++ [Called (page_wait_for_timeout 3000) (returns v1)])
              browser_close eq_refl) as [v2 E2]. rewrite E2.
  destruct (Hw ((h ++ [Called (page_wait_for_timeout 3000) (returns v1)])
                  ++ [Called browser_close (returns v2)])
              playwright_stop eq_refl) as [v3 E3]. rewrite E3.
  exists v1, v2, v3. rewrite <- !app_assoc. reflexivity.
Qed.

(** When every call returns, well-formed actions are carried out one
    after the other, each followed by its pause, and nothing is logged
    at level ERROR. *)
Lemma execute_actions_paced (actions : list dict) (data : dict) (w : world) :
  always_returns w ->
  Forall (fun action => dispatch data action <> None) actions ->
  forall h,
    calls (snd (execute_actions actions data w h))
    = calls h ++ paced (dispatches data actions)
    /\ errors (snd (execute_actions actions data w h)) = errors h.
Proof.
  intros Hw. induction 1 as [|a l Ha _ IH]; intros h.
  - cbn. rewrite app_nil_r. auto.
  - rewrite execute_actions_cons.
    destruct (IH (snd (guarded_action a data w h))) as [IHc IHe].
    rewrite IHc, IHe. clear IH IHc IHe.
    destruct (dispatch data a) as [c|] eqn:Hc; [|congruence].
    assert (Hd : exists d, lookup "description" a = Some d).
    { unfold dispatch in Hc.
      destruct (lookup "action" a); [|discriminate].
      destruct (lookup "selector" a); [|discriminate].
      destruct (lookup "description" a); [eauto|discriminate]. }
    destruct Hd as (d & Hd).
    rewrite (guarded_action_dispatch _ _ _ _ w h Hc Hd). cbv zeta.
    destruct (Hw (h ++ [Logged INFO (Text ("Executing: " ++ d))]) c)
      as [v ->].
    match goal with
    | |- context [w ?hh (page_wait_for_timeout 1000)] =>
        destruct (Hw hh (page_wait_for_timeout 1000)) as [v' ->]
    end.
    cbn [snd]. rewrite !calls_app, !errors_app.
    unfold dispatches, paced. cbn [flat_map]. rewrite Hc.
    cbn. rewrite <- !app_assoc, ?app_nil_r. auto.
Qed.

Lemma planned_dispatch (s : EmailService) (data : dict) :
  Forall (fun action => dispatch data action <> None) (planned s).
Proof. destruct s; repeat constructor; discriminate. Qed.

Lemma send_email_guarded_visits (instruction : string) (w : world)
  (h : history) :
  visited (snd (send_email_guarded instruction w h))
  = visited (snd (send_email_body instruction w h)).
Proof.
  unfold send_email_guarded, try_except.
  destruct (send_email_body instruction w h) as [[[]|e] h1]; [reflexivity|].
  unfold log. cbn [snd]. rewrite visited_app. apply app_nil_r.
Qed.

Lemma lower_char_dollar (c : ascii) :
  Ascii.eqb (lower_char c) "$" = Ascii.eqb c "$".
Proof. destruct c as [[] [] [] [] [] [] [] []]; reflexivity. Qed.

Lemma upper_char_dollar (c : ascii) :
  Ascii.eqb (upper_char c) "$" = Ascii.eqb c "$".
Proof. destruct c as [[] [] [] [] [] [] [] []]; reflexivity. Qed.

Lemma lower_lacks_dollar (s : string) :
  lacks "$" s = true -> lacks "$" (lower s) = true.
Proof.
  unfold lacks. induction s as [|c s IH]; cbn [lower all_chars]; [easy|].
  intros H. apply andb_true_iff in H as [Hc Hs].
  rewrite lower_char_dollar, Hc, (IH Hs). reflexivity.
Qed.

Lemma capitalize_lacks_dollar (s : string) :
  lacks "$" s = true -> lacks "$" (capitalize s) = true.
Proof.
  destruct s as [|c s]; [easy|]. unfold lacks at 1.
  cbn [capitalize all_chars]. intros H.
  apply andb_true_iff in H as [Hc Hs].
  unfold lacks. cbn [all_chars]. rewrite upper_char_dollar, Hc.
  apply (lower_lacks_dollar s Hs).
Qed.

(** A text with no ["$"] holds no placeholder: a turn of the
    substitution loop leaves it as it is. *)
Lemma replace_plain (key val u : string) :
  lacks "$" u = true -> replace (placeholder key) val u = u.
Proof.
  intros Hu. change (replace (placeholder key) val u)
    with (replace_scan (placeholder key) val 0 u).
  rewrite <- (SubstitutionFacts.append_empty_r u) at 1.
  rewrite SubstitutionFacts.placeholder_unfold.
  rewrite (SubstitutionFacts.replace_scan_plain _ _ _ _ Hu).
  apply SubstitutionFacts.append_empty_r.
Qed.

(** A template that is one placeholder becomes the value in the turn of
    its key. *)
Lemma replace_exact (key val : string) :
  replace (placeholder key) val (placeholder key) = val.
Proof.
  change (replace (placeholder key) val (placeholder key))
    with (replace_scan (placeholder key) val 0 (placeholder key)).
  rewrite <- (SubstitutionFacts.append_empty_r (placeholder key)) at 2.
  rewrite SubstitutionFacts.placeholder_unfold.
  rewrite SubstitutionFacts.replace_scan_here.
  apply SubstitutionFacts.append_empty_r.
Qed.

(** The three templates of the planner under the bindings of a send. *)
Lemma fill_recipient (e : EmailInstruction) :
  lacks "$" (recipient e) = true ->
  replace_placeholders (bindings_of e) "${recipient}" = recipient e.
Proof.
  intros H. cbn [replace_placeholders bindings_of].
  change "${recipient}" with (placeholder "recipient").
  rewrite replace_exact.
  rewrite (replace_plain "subject" _ _ H), (replace_plain "body" _ _ H).
  reflexivity.
Qed.

Lemma fill_subject (e : EmailInstruction) :
  lacks "$" (subject e) = true ->
  replace_placeholders (bindings_of e) "${subject}" = subject e.
Proof.
  intros H. cbn [replace_placeholders bindings_of].
  change (replace (placeholder "recipient") (recipient e) "${subject}")
    with (placeholder "subject").
  rewrite replace_exact, replace_plain by exact H. reflexivity.
Qed.

Lemma fill_body (e : EmailInstruction) :
  replace_placeholders (bindings_of e) "${body}" = body e.
Proof.
  cbn [replace_placeholders bindings_of].
  change (replace (placeholder "recipient") (recipient e) "${body}")
    with "${body}".
  change (replace (placeholder "subject") (subject e) "${body}")
    with (placeholder "body").
  apply replace_exact.
Qed.

End OrchestratorMore.

Section OrchestratorExtras.
Import PyStr WebAutomationAgent HistoryFacts ExecutorFacts ExecutorMore.
Import PyStrFacts ParserFacts OrchestratorFacts OrchestratorMore.

(** X10.  Whatever the browser answers, a send navigates exactly once,
    to the address of the service the parser chose: Gmail as soon as the
    lower-cased instruction holds ["gmail"] anywhere (in the recipient's
    address too, and even when it also names Outlook), Outlook when it
    holds ["outlook"] and no ["gmail"], Gmail otherwise. *)
Theorem send_visits_chosen_service (instruction : string) (w : world)
  (h : history) :
  visited (snd (send_email instruction w h))
  = visited h
    ++ [if contains "gmail" (lower instruction)
        then "https://mail.google.com"
        else if contains "outlook" (lower instruction)
             then "https://outlook.live.com"
             else "https://mail.google.com"].
Proof.
  rewrite send_email_is_cleanup.
  destruct (send_email_cleanup_adds w
              (snd (send_email_guarded instruction w h))) as (s & -> & F).
  assert (F' : Forall (permits not_goto) s).
  { revert F. apply Forall_impl. intros [c r| |] H; cbn in *; auto.
    apply andb_prop in H. apply H. }
  rewrite visited_app, (visited_none _ F'), app_nil_r.
  rewrite send_email_guarded_visits, send_email_body_visits.
  unfold LLMClient.extract_service.
  destruct (contains "gmail" (lower instruction)); [reflexivity|].
  destruct (contains "outlook" (lower instruction)); reflexivity.
Qed.

(** X11.  When the instruction holds no ["$"], the planned fills get
    exactly the parsed values: the first field the recipient, the second
    the subject, the third the body; the first and last actions are
    clicks. *)
Theorem fields_receive_parsed_values (instruction : string) (w : world)
  (h : history) :
  lacks "$" instruction = true ->
  exists email_data,
    fst (LLMClient.parse_email_instruction instruction w h)
    = Return email_data
    /\ map filled_text
         (dispatches (bindings_of email_data) (planned (service email_data)))
       = [None; Some (recipient email_data); Some (subject email_data);
          Some (body email_data); None].
Proof.
  intros Hi. apply lower_lacks_dollar in Hi.
  rewrite parse_email_instruction_returns. eexists.
  split; [reflexivity|].
  match goal with
  | |- context [bindings_of ?e] => set (email_data := e)
  end.
  assert (Hr : lacks "$" (recipient email_data) = true).
  { cbn [email_data recipient].
    destruct (after_first "to " (lower instruction)) as [rest|] eqn:E;
      [|reflexivity].
    destruct (contains "@" (candidate rest)); [|reflexivity].
    apply candidate_all_chars, (after_first_all_chars _ _ _ _ Hi E). }
  assert (Hs : lacks "$" (subject email_data) = true).
  { cbn [email_data subject].
    destruct (after_first "about " (lower instruction)) as [rest|] eqn:E;
      [|reflexivity].
    apply capitalize_lacks_dollar.
    apply before_first_all_chars, before_first_all_chars.
    apply (after_first_all_chars _ _ _ _ Hi E). }
  pose proof (fill_recipient email_data Hr) as Fr.
  pose proof (fill_subject email_data Hs) as Fs.
  pose proof (fill_body email_data) as Fb.
  destruct (service email_data).
  - change (map filled_text
              (dispatches (bindings_of email_data) (planned GMAIL)))
      with [None;
            Some (replace_placeholders (bindings_of email_data) "${recipient}");
            Some (replace_placeholders (bindings_of email_data) "${subject}");
            Some (replace_placeholders (bindings_of email_data) "${body}");
            None].
    rewrite Fr, Fs, Fb. reflexivity.
  - change (map filled_text
              (dispatches (bindings_of email_data) (planned OUTLOOK)))
      with [None;
            Some (replace_placeholders (bindings_of email_data) "${recipient}");
            Some (replace_placeholders (bindings_of email_data) "${subject}");
            Some (replace_placeholders (bindings_of email_data) "${body}");
            None].
    rewrite Fr, Fs, Fb. reflexivity.
Qed.

Lemma fields_receive_parsed_values_witness :
  let instruction :=
    "Send an email to friend@example.com about our weekend plans. Use Outlook"
  in
  lacks "$" instruction = true
  /\ exists email_data,
       fst (LLMClient.parse_email_instruction instruction responsive [])
       = Return email_data
       /\ map filled_text
            (dispatches (bindings_of email_data)
               (planned (service email_data)))
          = [None; Some (recipient email_data); Some (subject email_data);
             Some (body email_data); None].
Proof.
  intros instruction. split; [reflexivity|].
  exact (fields_receive_parsed_values instruction responsive [] eq_refl).
Defined.

(** X12.  Failed actions never fail a send: when only clicks and fills
    can raise (and they may all do), [send_email] returns normally, logs
    ["Email sent successfully!"], releases the browser once, and the
    endpoint answers with status ["success"]. *)
Theorem success_despite_failed_actions (instruction : string) (w : world)
  (h : history) :
  only_dispatch_fails w ->
  fst (send_email instruction w h) = Return tt
  /\ In (Logged INFO (Text "Email sent successfully!"))
       (snd (send_email instruction w h))
  /\ releases (snd (send_email instruction w h)) = releases h + 1
  /\ fst (AutomationAPI.send_email_endpoint instruction w h)
     = Return [("status", "success"); ("message", "Email sent successfully")].
Proof.
  intros Hw.
  assert (R : fst (send_email instruction w h) = Return tt
              /\ In (Logged INFO (Text "Email sent successfully!"))
                   (snd (send_email instruction w h))).
  { rewrite send_email_is_cleanup.
    assert (He : exists e,
               fst (LLMClient.parse_email_instruction instruction w h)
               = Return e).
    { rewrite parse_email_instruction_returns. eexists. reflexivity. }
    destruct He as (e & He).
    destruct (send_email_body_runs instruction e w h Hw He) as (h4 & Hb & _).
    unfold send_email_guarded, try_except. rewrite Hb. cbn [snd].
    destruct (send_email_cleanup_runs w
                (snd (execute_actions (planned (service e)) (bindings_of e)
                        w h4)
                 ++ [Logged INFO (Text "Email sent successfully!")]) Hw)
      as (v1 & v2 & v3 & ->).
    split; [reflexivity|]. cbn [snd].
    rewrite !in_app_iff. left. right. left. reflexivity. }
  destruct R as [R1 R2]. split; [exact R1|]. split; [exact R2|]. split.
  - rewrite send_email_releases.
    destruct (Hw (snd (send_email_guarded instruction w h))
                (page_wait_for_timeout 3000) eq_refl) as [v ->].
    reflexivity.
  - rewrite send_email_endpoint_status.
    destruct (send_email instruction w h) as [[[]|e] h']; cbn [fst] in R1 |- *;
      [reflexivity | discriminate R1].
Qed.

Lemma success_despite_failed_actions_witness :
  let instruction := "Send an email to a@b.com about lunch using Gmail" in
  only_dispatch_fails no_element_found
  /\ List.length (errors (snd (send_email instruction no_element_found [])))
     = 5
  /\ fst (send_email instruction no_element_found []) = Return tt
  /\ In (Logged INFO (Text "Email sent successfully!"))
       (snd (send_email instruction no_element_found []))
  /\ fst (AutomationAPI.send_email_endpoint instruction no_element_found [])
     = Return [("status", "success"); ("message", "Email sent successfully")].
Proof.
  intros instruction.
  assert (Hw : only_dispatch_fails no_element_found).
  { intros h c Hc. unfold no_element_found. rewrite Hc. eauto. }
  split; [exact Hw|]. split; [vm_compute; reflexivity|].
  destruct (success_despite_failed_actions instruction no_element_found []
              Hw) as (R1 & R2 & _ & R4).
  split; [exact R1|]. split; [exact R2 | exact R4].
Defined.

End OrchestratorExtras.

Section SessionExtras.
Import PyStr WebAutomationAgent HistoryFacts ExecutorFacts ExecutorMore.
Import ParserFacts OrchestratorFacts OrchestratorMore.

(** X13.  In a browser where every call returns, a send makes these
    calls and no other, in this order: the navigation to the service, the
    wait of 3 s, the wait of 2 s of the authentication, the reading of
    the markup, each planned operation followed by its pause of 1 s, the
    wait of 3 s, the closing of the browser and the stop of the driver;
    it returns normally and logs nothing at level ERROR. *)
Theorem send_call_sequence (instruction : string) (w : world) (h : history) :
  always_returns w ->
  exists email_data,
    fst (LLMClient.parse_email_instruction instruction w h)
    = Return email_data
    /\ fst (send_email instruction w h) = Return tt
    /\ calls (snd (send_email instruction w h))
       = calls h
         ++ [page_goto (service_url (service email_data));
             page_wait_for_timeout 3000; page_wait_for_timeout 2000;
             page_content]
         ++ paced (dispatches (bindings_of email_data)
                     (planned (service email_data)))
         ++ [page_wait_for_timeout 3000; browser_close; playwright_stop]
    /\ errors (snd (send_email instruction w h)) = errors h.
Proof.
  intros Hw.
  assert (Hw' : only_dispatch_fails w) by (intros h0 c _; apply Hw).
  assert (He : exists e,
             fst (LLMClient.parse_email_instruction instruction w h)
             = Return e).
  { rewrite parse_email_instruction_returns. eexists. reflexivity. }
  destruct He as (e & He). exists e. split; [exact He|].
  destruct (send_email_body_runs instruction e w h Hw' He)
    as (h4 & Hb & Hc4 & He4).
  destruct (execute_actions_paced (planned (service e)) (bindings_of e) w
              Hw (planned_dispatch _ _) h4) as [Hc He5].
  rewrite send_email_is_cleanup.
  unfold send_email_guarded, try_except. rewrite Hb. cbn [snd].
  destruct (send_email_cleanup_runs w
              (snd (execute_actions (planned (service e)) (bindings_of e)
                      w h4)
               ++ [Logged INFO (Text "Email sent successfully!")]) Hw')
    as (v1 & v2 & v3 & ->).
  split; [reflexivity|]. cbn [snd].
  rewrite !calls_app, !errors_app, Hc, He5, Hc4, He4. cbn.
  rewrite <- !app_assoc, !app_nil_r. split; reflexivity.
Qed.

Lemma send_call_sequence_witness :
  let instruction := "Send an email to a@b.com about lunch using Outlook" in
  always_returns responsive
  /\ calls (snd (send_email instruction responsive []))
     = [ page_goto "https://outlook.live.com";
         page_wait_for_timeout 3000; page_wait_for_timeout 2000;
         page_content;
         page_click "button[aria-label='New message']";
         page_wait_for_timeout 1000;
         page_fill "input[aria-label='To']" "a@b.com";
         page_wait_for_timeout 1000;
         page_fill "input[aria-label='Add a subject']"
           "Lunch using outlook";
         page_wait_for_timeout 1000;
         page_fill "div[aria-label='Message body']"
           "This is an automated email sent by the Humaein AI agent.";
         page_wait_for_timeout 1000;
         page_click "button[aria-label='Send']";
         page_wait_for_timeout 1000;
         page_wait_for_timeout 3000; browser_close; playwright_stop ].
Proof.
  intros instruction.
  assert (Hw : always_returns responsive) by (intros h c; exists ""; reflexivity).
  split; [exact Hw|].
  destruct (send_call_sequence instruction responsive [] Hw)
    as (e & He & _ & Hc & _).
  vm_compute in He. injection He as <-. exact Hc.
Defined.

(** X14.  The endpoint never raises, and its status tells how the
    cleanup of the send went, nothing else: ["error"], with the text of
    the exception as message, exactly when the [finally] block of
    [send_email] raised; ["success"] in every other case, whatever
    happened in the pipeline. *)
Theorem endpoint_reports_cleanup_only (instruction : string) (w : world)
  (h : history) :
  AutomationAPI.send_email_endpoint instruction w h
  = match send_email_cleanup w (snd (send_email_guarded instruction w h)) with
    | (Return _, h') =>
        (Return [("status", "success");
                 ("message", "Email sent successfully")], h')
    | (Raise e, h') =>
        (Return [("status", "error"); ("message", str_exn e)], h')
    end.
Proof.
  rewrite send_email_endpoint_status, send_email_is_cleanup. reflexivity.
Qed.

(** X15.  The driver is stopped only after the browser was closed: a
    send calls [playwright.stop()] once when the wait and the
    [browser.close()] before it in the [finally] block both return, and
    never when one of them raises. *)
Theorem driver_stopped_only_after_close (instruction : string) (w : world)
  (h : history) :
  let h1 := snd (send_email_guarded instruction w h) in
  stops (snd (send_email instruction w h))
  = stops h
    + match w h1 (page_wait_for_timeout 3000) with
      | raises _ => 0
      | returns v =>
          match w (h1 ++ [Called (page_wait_for_timeout 3000) (returns v)])
                  browser_close with
          | raises _ => 0
          | returns _ => 1
          end
      end.
Proof.
  intros h1. rewrite send_email_is_cleanup. fold h1.
  assert (E : stops h1 = stops h).
  { unfold h1.
    destruct (send_email_guarded_calls instruction w h) as (s & -> & F).
    rewrite stops_app, (stops_none _ F). lia. }
  rewrite <- E. clearbody h1. clear E.
  unfold send_email_cleanup, bind, invoke, ret.
  destruct (w h1 (page_wait_for_timeout 3000)) as [v|e]; cbn [snd].
  - destruct (w _ browser_close) as [v1|e1]; cbn [snd].
    + destruct (w _ playwright_stop) as [v2|e2]; cbn [snd];
        rewrite !stops_app; cbn; lia.
    + rewrite !stops_app. cbn. lia.
  - rewrite stops_app. cbn. lia.
Qed.

(** X16.  A send acquires nothing: it never starts the driver, launches
    a browser, or opens a context or a page; it works on the session of
    the agent only. *)
Theorem send_acquires_nothing (instruction : string) (w : world)
  (h : history) :
  exists suffix,
    snd (send_email instruction w h) = h ++ suffix
    /\ Forall (permits send_call) suffix.
Proof.
  apply adds_try_finally.
  - apply (adds_weaken _ _ _ pipeline_call_send),
      send_email_guarded_calls.
  - apply (adds_weaken (permits (fun c => not_goto c && send_call c)));
      [|apply send_email_cleanup_adds].
    intros [c r| |] H; cbn in *; auto. apply andb_prop in H. apply H.
Qed.

(** X17.  When the acquisition of the session fails, the script ends
    with that exception before it processes any instruction, and the
    driver, if it was started, is never stopped: [__init__] has no
    cleanup. *)
Theorem acquisition_failure_ends_the_script (w : world) (e : exn)
  (h' : history) :
  init w [] = (Raise e, h') ->
  main w [] = (Raise e, h')
  /\ printed h' = []
  /\ stops h' = 0
  /\ exists n, calls h' = firstn n acquisition.
Proof.
  intros H. split.
  - unfold main, bind. rewrite H. reflexivity.
  - revert H. unfold init, bind, invoke, ret.
    destruct (w [] sync_playwright_start) as [v1|e1];
      [|intros [= <- <-]; repeat split; exists 1; reflexivity].
    destruct (w _ chromium_launch) as [v2|e2];
      [|intros [= <- <-]; repeat split; exists 2; reflexivity].
    destruct (w _ browser_new_context) as [v3|e3];
      [|intros [= <- <-]; repeat split; exists 3; reflexivity].
    destruct (w _ context_new_page) as [v4|e4];
      [discriminate|intros [= <- <-]; repeat split; exists 4; reflexivity].
Qed.

Lemma acquisition_failure_ends_the_script_witness :
  let failure := PlaywrightError "Executable doesn't exist" in
  let h' := [Called sync_playwright_start (returns "");
             Called chromium_launch (raises failure)] in
  init launch_fails [] = (Raise failure, h')
  /\ main launch_fails [] = (Raise failure, h')
  /\ stops h' = 0.
Proof.
  intros failure h'. split; [reflexivity|].
  destruct (acquisition_failure_ends_the_script launch_fails failure h'
              eq_refl) as (Hm & _ & Hs & _).
  split; [exact Hm | exact Hs].
Defined.

End SessionExtras.

Section SubstitutionExtras.
Import PyStr WebAutomationAgent ExecutorFacts OrchestratorMore.

(** X18.  A value with no ["$"] in it is filled as it is written,
    whatever the bindings (their keys and values may be any texts): the
    substitution loop leaves it alone and the page is sent that exact
    text. *)
Theorem plain_value_is_verbatim (data action : dict) (selector v : string) :
  lacks "$" v = true ->
  lookup "action" action = Some "fill" ->
  lookup "selector" action = Some selector ->
  lookup "description" action <> None ->
  lookup "value" action = Some v ->
  replace_placeholders data v = v
  /\ dispatch data action = Some (page_fill selector v).
Proof.
  intros Hv Ha Hs Hd Hval.
  assert (E : replace_placeholders data v = v).
  { induction data as [|[key val] data IH]; [reflexivity|].
    cbn [replace_placeholders]. rewrite (replace_plain _ _ _ Hv). exact IH. }
  split; [exact E|].
  unfold dispatch. rewrite Ha, Hs, Hval.
  destruct (lookup "description" action); [|congruence].
  cbn. rewrite E. reflexivity.
Qed.

Lemma plain_value_is_verbatim_witness :
  let data := [("a}${b", "X"); ("", "Y")] in
  let action := [("action", "fill"); ("selector", "#note");
                 ("value", "see {a} and b}"); ("description", "Fill note")] in
  lacks "$" "see {a} and b}" = true
  /\ replace_placeholders data "see {a} and b}" = "see {a} and b}"
  /\ dispatch data action = Some (page_fill "#note" "see {a} and b}").
Proof.
  intros data action. split; [reflexivity|].
  refine (plain_value_is_verbatim data action "#note" "see {a} and b}"
            eq_refl eq_refl eq_refl _ eq_refl).
  discriminate.
Defined.

End SubstitutionExtras.
